(** * Drought-indicator notebook: the VCI pipeline and its label helpers

    A shallow embedding of [Drought_indicator_extraction_tutorial.ipynb].

    The notebook has two kinds of code.  Client-side Python (the helper
    [create_band_names] and the list comprehension bound to [text]) is
    embedded in a small state-and-exception monad over the notebook's global
    variables.  The Earth Engine calls ([col2monthly], [min_monthly],
    [max_monthly], [vci_calc] and the cells that chain them) are embedded by
    their denotation: an image is a list of named bands plus a property
    dictionary, a collection is a list of images, and every Earth Engine
    primitive the notebook calls is a function on those, following the
    documented behaviour of the service.

    Conventions of the Earth Engine model, fixed once here:
    - pixel values are exact rationals ([Q]); rounding is not modelled;
    - a pixel is either masked ([None]) or carries a value;
    - the time stamp ['system:time_start'] is kept as its calendar year and
      month, the only two fields [ee.Filter.calendarRange] reads here;
    - an error of the service (a [select] of a missing band, a band-count
      mismatch) is [None]. *)

From Stdlib Require Import ZArith QArith Qminmax Lia Lqa.
From Stdlib Require Import Strings.Ascii Numbers.DecimalString Numbers.DecimalZ.
From stdpp Require Import base option list strings gmap.

Local Open Scope Z_scope.

(** ** Python values, exceptions and the notebook monad *)

Module py.

(** The scalar values a notebook global may hold. *)
Inductive pyval :=
| PyInt (z : Z)
| PyStr (s : string)
| PyNone.

Inductive exn :=
| NameError (name : string)
| TypeError.

(** A computation reads and writes the dictionary of globals and either
    returns a value or raises. *)
Definition Py (A : Type) : Type :=
  gmap string pyval → (exn + A) * gmap string pyval.

Definition ret {A} (a : A) : Py A := λ g, (inr a, g).

Definition raise {A} (e : exn) : Py A := λ g, (inl e, g).

Definition bind {A B} (m : Py A) (k : A → Py B) : Py B :=
  λ g, match m g with
       | (inl e, g') => (inl e, g')
       | (inr a, g') => k a g'
       end.

#[global] Instance Py_ret : MRet Py := @ret.
#[global] Instance Py_bind : MBind Py := λ A B k m, bind m k.

(** Reading a global name: [NameError] when it is unbound. *)
Definition load_global (x : string) : Py pyval :=
  λ g, match g !! x with
       | Some v => (inr v, g)
       | None => (inl (NameError x), g)
       end.

(** A top-level assignment [x = v]. *)
Definition store_global (x : string) (v : pyval) : Py unit :=
  λ g, (inr tt, <[x:=v]> g).

(** [for x in xs: body], the loop-carried local threaded as [acc]. *)
Fixpoint for_each {A B} (xs : list A) (acc : B) (body : B → A → Py B) : Py B :=
  match xs with
  | [] => ret acc
  | x :: xs' => acc' ← body acc x ; for_each xs' acc' body
  end.

(** [[e for x in xs]]. *)
Fixpoint comprehension {A B} (xs : list A) (e : A → Py B) : Py (list B) :=
  match xs with
  | [] => ret []
  | x :: xs' => b ← e x ; bs ← comprehension xs' e ; ret (b :: bs)
  end.

(** *** Built-ins *)

(** [str(n)] of an [int]: decimal digits, a leading ['-'] when negative. *)
Definition str_int (z : Z) : string := NilEmpty.string_of_int (Z.to_int z).

Definition str (v : pyval) : string :=
  match v with
  | PyInt z => str_int z
  | PyStr s => s
  | PyNone => "None"
  end.

(** [a + b]: defined on two ints and on two strings. *)
Definition add (a b : pyval) : Py pyval :=
  match a, b with
  | PyInt x, PyInt y => ret (PyInt (x + y))
  | PyStr s, PyStr t => ret (PyStr (s +:+ t))
  | _, _ => raise TypeError
  end.

(** [range(a, b)]: the ints [a, a+1, ..., b-1]; empty when [b <= a];
    [TypeError] unless both bounds are ints. *)
Definition range (a b : pyval) : Py (list Z) :=
  match a, b with
  | PyInt x, PyInt y => ret (seqZ x (y - x))
  | _, _ => raise TypeError
  end.

Fixpoint replicate_char (n : nat) (c : ascii) : string :=
  match n with
  | O => EmptyString
  | S n' => String c (replicate_char n' c)
  end.

(** [s.rjust(width, fillchar)]. *)
Definition rjust (s : string) (width : nat) (fillchar : ascii) : string :=
  replicate_char (width - String.length s)%nat fillchar +:+ s.

(** [s.zfill(width)]: zeros go after a leading sign. *)
Definition zfill (s : string) (width : nat) : string :=
  let pad := replicate_char (width - String.length s)%nat "0"%char in
  match s with
  | String c rest =>
      if (Ascii.eqb c "+"%char || Ascii.eqb c "-"%char)%bool
      then String c (pad +:+ rest)
      else pad +:+ s
  | EmptyString => pad
  end.

End py.

(** ** Earth Engine: images, collections and the primitives the notebook calls *)

Module ee.

(** A pixel is a location, longitude and latitude in degrees. *)
Definition pixel : Type := (Q * Q)%type.

(** One band: a value at every unmasked pixel. *)
Definition raster : Type := pixel → option Q.

(** A geometry is the set of locations it covers. *)
Definition Geometry : Type := pixel → bool.

(** Property values: numbers, strings, and the time stamp reduced to its
    calendar year and month. *)
Inductive propval :=
| PNum (n : Z)
| PStr (s : string)
| PTime (year month : Z).

#[global] Instance propval_eq_dec : EqDecision propval.
Proof. solve_decision. Defined.

Record Image := mkImage {
  bands : list (string * raster);
  props : gmap string propval
}.

Abbreviation ImageCollection := (list Image).

(** The axis-aligned rectangle [west <= lon <= east], [south <= lat <= north]
    (a planar, non-geodesic polygon on those four corners). *)
Definition rectangle (west south east north : Q) : Geometry :=
  λ p, (Qle_bool west p.1 && Qle_bool p.1 east
        && Qle_bool south p.2 && Qle_bool p.2 north)%bool.

(** The first band of that name. *)
Fixpoint assoc (name : string) (bs : list (string * raster)) : option raster :=
  match bs with
  | [] => None
  | (n, r) :: bs' => if decide (n = name) then Some r else assoc name bs'
  end.

Definition band (img : Image) (name : string) : option raster :=
  assoc name (bands img).

(** The value of band [name] at pixel [p]; [None] when the band is missing or
    the pixel is masked. *)
Definition pixel_value (img : Image) (name : string) (p : pixel) : option Q :=
  r ← band img name; r p.

Definition bandNames (img : Image) : list string := (bands img).*1.

Definition propertyNames (img : Image) : list string :=
  (map_to_list (props img)).*1.

(** [image.set(k, v)]. *)
Definition set (k : string) (v : propval) (img : Image) : Image :=
  mkImage (bands img) (<[k:=v]> (props img)).

(** [dest.copyProperties(source, names)]: every listed property that [source]
    has overrides [dest]'s. *)
Definition copyProperties (dest source : Image) (names : list string) : Image :=
  mkImage (bands dest)
    (foldr (λ k acc, match props source !! k with
                     | Some v => <[k:=v]> acc
                     | None => acc
                     end) (props dest) names).

(** [image.clip(g)]: pixels outside [g] become masked; metadata is kept. *)
Definition clip (g : Geometry) (img : Image) : Image :=
  mkImage ((λ b : string * raster,
              (b.1, λ p, if g p then b.2 p else None)) <$> bands img)
          (props img).

(** [image.select(olds, news)]: the listed bands, in that order, renamed. *)
Definition select (olds news : list string) (img : Image) : option Image :=
  if decide (length olds = length news) then
    bs ← mapM (λ on : string * string,
                 r ← band img on.1; Some (on.2, r)) (zip olds news);
    Some (mkImage bs (props img))
  else None.

(** [ee.Image.constant(c)], what a bare number is promoted to. *)
Definition constant (c : Q) : Image :=
  mkImage [("constant", λ _, Some c)] ∅.

Definition pointwise (f : Q → Q → Q) (r1 r2 : raster) : raster :=
  λ p, match r1 p, r2 p with
       | Some a, Some b => Some (f a b)
       | _, _ => None
       end.

(** Binary image arithmetic.  A single-band operand is used against every
    band of the other; equal band counts pair up in order; the bands are
    named for the longer operand, for the first when equal.  The result is a
    new image: it carries no properties of either operand. *)
Definition binop (f : Q → Q → Q) (i1 i2 : Image) : option Image :=
  match bands i1, bands i2 with
  | bs1, [(_, r2)] =>
      Some (mkImage ((λ b : string * raster,
                        (b.1, pointwise f b.2 r2)) <$> bs1) ∅)
  | [(_, r1)], bs2 =>
      Some (mkImage ((λ b : string * raster,
                        (b.1, pointwise f r1 b.2)) <$> bs2) ∅)
  | bs1, bs2 =>
      if decide (length bs1 = length bs2) then
        Some (mkImage ((λ bb : (string * raster) * (string * raster),
                          (bb.1.1, pointwise f bb.1.2 bb.2.2))
                         <$> zip bs1 bs2) ∅)
      else None
  end.

Definition subtract : Image → Image → option Image := binop Qminus.
Definition multiply : Image → Image → option Image := binop Qmult.
(** [Qdiv a 0] is [0]: division by zero returns 0, as the service does. *)
Definition divide : Image → Image → option Image := binop Qdiv.

(** *** Filters *)

Definition Filter : Type := Image → bool.

(** [ee.Filter.eq(name, v)]. *)
Definition Filter_eq (name : string) (v : propval) : Filter :=
  λ img, bool_decide (props img !! name = Some v).

Inductive calendar_field := year_field | month_field.

(** [ee.Filter.calendarRange(start, end, field)] on ['system:time_start'];
    when [end < start] the range wraps around. *)
Definition Filter_calendarRange (start end_ : Z) (field : calendar_field) : Filter :=
  λ img, match props img !! "system:time_start" with
         | Some (PTime y m) =>
             let v := match field with year_field => y | month_field => m end in
             if start <=? end_
             then ((start <=? v) && (v <=? end_))%bool
             else ((start <=? v) || (v <=? end_))%bool
         | _ => false
         end.

Definition filter (f : Filter) (col : ImageCollection) : ImageCollection :=
  List.filter f col.

(** *** Reducing a collection to one image *)

(** The unmasked values the images of [col] have in band [b] at [p]. *)
Definition values_at (col : ImageCollection) (b : string) (p : pixel) : list Q :=
  omap (λ img, pixel_value img b p) col.

(** One output band for each band of the first image, bands matched by
    name; an empty collection gives an image without bands.  A pixel without
    any unmasked input is masked.  The output has no properties. *)
Definition reduce (f : list Q → option Q) (col : ImageCollection) : Image :=
  mkImage
    match col with
    | [] => []
    | img :: _ =>
        (λ b : string * raster, (b.1, λ p, f (values_at col b.1 p))) <$> bands img
    end ∅.

Definition Qsum (vs : list Q) : Q := foldr Qplus 0%Q vs.

Definition mean_of (vs : list Q) : option Q :=
  match vs with
  | [] => None
  | _ => Some (Qsum vs / inject_Z (Z.of_nat (length vs)))%Q
  end.

Definition min_of (vs : list Q) : option Q :=
  match vs with
  | [] => None
  | v :: vs' => Some (foldl Qmin v vs')
  end.

Definition max_of (vs : list Q) : option Q :=
  match vs with
  | [] => None
  | v :: vs' => Some (foldl Qmax v vs')
  end.

Definition mean : ImageCollection → Image := reduce mean_of.
Definition min : ImageCollection → Image := reduce min_of.
Definition max : ImageCollection → Image := reduce max_of.

(** *** Lists and collections *)

(** [ee.List.sequence(a, b)]: [a, a+1, ..., b]. *)
Definition List_sequence (a b : Z) : list Z := seqZ a (b - a + 1).

(** [ee.ImageCollection.fromImages(l)]: the images in list order; the
    collection identifies them by position, ['0'], ['1'], ... *)
Definition fromImages (l : list Image) : ImageCollection := l.

(** [collection.map(f)]: [f] on every image, in order; an error in any
    image is an error of the collection. *)
Definition map (f : Image → option Image) (col : ImageCollection)
  : option ImageCollection := mapM f col.

(** [ee.Number(n).format('%02d')]. *)
Definition format_02d (n : Z) : string := py.zfill (py.str_int n) 2.

(** [collection.toBands()] of a collection identified by position: band [b]
    of image number [i] becomes band ['i_b']. *)
Definition toBands (col : ImageCollection) : Image :=
  mkImage
    (mjoin (imap (λ i img,
                    (λ b : string * raster,
                       (py.str_int (Z.of_nat i) +:+ "_" +:+ b.1, b.2))
                      <$> bands img) col)) ∅.

End ee.

(** ** The notebook's client-side helpers *)

Import py.

(** Cell 10: [start_year = 2001], [end_year = 2022]. *)
Definition define_years : Py unit :=
  store_global "start_year" (PyInt 2001) ;;
  store_global "end_year" (PyInt 2022).

(** Cell 31, [create_band_names()]. *)
Definition create_band_names : Py (list string) :=
  months ← range (PyInt 1) (PyInt 13) ;
  start_year ← load_global "start_year" ;
  end_year ← load_global "end_year" ;
  stop ← add end_year (PyInt 1) ;
  years ← range start_year stop ;
  names ← for_each years [] (λ names year,
             for_each months names (λ names month,
               ret (names ++ [rjust (str (PyInt month)) 2 "0"%char +:+ "-"
                                +:+ str (PyInt year) +:+ "_VCI"]))) ;
  ret names.

(** Cell 35: [y = 2022]. *)
Definition define_y : Py unit := store_global "y" (PyInt 2022).

(** Cell 35: [[str(n).zfill(2) + "-" + str(y) for n in range(1, 13)]], the
    value bound to [text]. *)
Definition text : Py (list string) :=
  ns ← range (PyInt 1) (PyInt 13) ;
  comprehension ns (λ n,
    y ← load_global "y" ;
    ret (zfill (str (PyInt n)) 2 +:+ "-" +:+ str y)).

(** ** The notebook's Earth Engine cells *)

Section notebook.

(** Cell 10: the year range, and the region of interest, the rectangle on
    the corners (-8.5, 61), (-8.5, 49), (2, 49), (2, 61). *)
Variables (start_year end_year : Z).

Definition roi : ee.Geometry := ee.rectangle (-17 # 2) 49 2 61.

(** Cell 16. *)
Definition col2monthly (col : ee.ImageCollection) : ee.ImageCollection :=
  let months := ee.List_sequence 1 12 in
  let years := ee.List_sequence start_year end_year in
  let yearly (y : Z) :=
    let monthly (m : Z) :=
      ee.set "year" (ee.PNum y)
        (ee.set "month" (ee.PNum m)
           (ee.mean
              (ee.filter (ee.Filter_calendarRange m m ee.month_field)
                 (ee.filter (ee.Filter_calendarRange y y ee.year_field) col))))
    in
    monthly <$> months
  in
  ee.fromImages (mjoin (yearly <$> years)).

(** Cells 18 and 24:
    [lambda image: image.multiply(0.0001).copyProperties(image, image.propertyNames())]. *)
Definition apply_scale_factor (image : ee.Image) : option ee.Image :=
  scaled ← ee.multiply image (ee.constant (1 # 10000));
  Some (ee.copyProperties scaled image (ee.propertyNames image)).

(** Cell 22. *)
Definition min_monthly (col : ee.ImageCollection) : ee.ImageCollection :=
  let months := ee.List_sequence 1 12 in
  let monthly (m : Z) :=
    ee.set "ID" (ee.PStr (ee.format_02d m))
      (ee.set "month" (ee.PNum m)
         (ee.min (ee.filter (ee.Filter_calendarRange m m ee.month_field) col)))
  in
  ee.fromImages (monthly <$> months).

Definition max_monthly (col : ee.ImageCollection) : ee.ImageCollection :=
  let months := ee.List_sequence 1 12 in
  let monthly (m : Z) :=
    ee.set "ID" (ee.PStr (ee.format_02d m))
      (ee.set "month" (ee.PNum m)
         (ee.max (ee.filter (ee.Filter_calendarRange m m ee.month_field) col)))
  in
  ee.fromImages (monthly <$> months).

(** Cell 26. *)
Definition vci_calc (col max_vals min_vals : ee.ImageCollection)
  : option ee.ImageCollection :=
  let months := ee.List_sequence 1 12 in
  let years := ee.List_sequence start_year end_year in
  let year_map (y : Z) :=
    let month_map (m : Z) :=
      let x := ee.mean (ee.filter (ee.Filter_eq "month" (ee.PNum m))
                          (ee.filter (ee.Filter_eq "year" (ee.PNum y)) col)) in
      let max_x := ee.mean (ee.filter (ee.Filter_eq "month" (ee.PNum m)) max_vals) in
      let min_x := ee.mean (ee.filter (ee.Filter_eq "month" (ee.PNum m)) min_vals) in
      x_ndvi ← ee.select ["NDVI"] ["NDVI"] x;
      min_ndvi ← ee.select ["NDVI"] ["NDVI"] min_x;
      numerator ← ee.subtract x_ndvi min_ndvi;
      max_ndvi ← ee.select ["NDVI"] ["NDVI"] max_x;
      denominator ← ee.subtract max_ndvi min_ndvi;
      ratio ← ee.divide numerator denominator;
      scaled ← ee.multiply ratio (ee.constant 100);
      Some (ee.set "year" (ee.PNum y) (ee.set "month" (ee.PNum m) scaled))
    in
    mapM month_map months
  in
  images ← mapM year_map years;
  Some (ee.fromImages (mjoin images)).

(** The asset ["MODIS/061/MOD13A2"]. *)
Variable MOD13A2 : ee.ImageCollection.

(** Cell 13. *)
Definition MODIS_NDVI_raw : option ee.ImageCollection :=
  ee.map (ee.select ["NDVI"] ["NDVI"]) MOD13A2.

Definition MODIS_NDVI : option ee.ImageCollection :=
  col ← MODIS_NDVI_raw; ee.map (λ image, Some (ee.clip roi image)) col.

(** Cell 18. *)
Definition NDVI_Monthly : option ee.ImageCollection :=
  col ← MODIS_NDVI; ee.map apply_scale_factor (col2monthly col).

(** Cell 24. *)
Definition NDVI_mon_min : option ee.ImageCollection :=
  col ← MODIS_NDVI; ee.map apply_scale_factor (min_monthly col).

Definition NDVI_mon_max : option ee.ImageCollection :=
  col ← MODIS_NDVI; ee.map apply_scale_factor (max_monthly col).

(** Cell 28. *)
Definition vci : option ee.ImageCollection :=
  col ← NDVI_Monthly;
  max_vals ← NDVI_mon_max;
  min_vals ← NDVI_mon_min;
  out ← vci_calc col max_vals min_vals;
  ee.map (ee.select ["NDVI"] ["VCI"]) out.

(** Cell 31: [vci.toBands()], its band names, and the renamed image. *)
Definition vci_toBands : option ee.Image := ee.toBands <$> vci.

Definition original_names : option (list string) := ee.bandNames <$> vci_toBands.

Definition vci_img (new_names : list string) : option ee.Image :=
  img ← vci_toBands;
  names ← original_names;
  ee.select names new_names img.

(** Cell 35: the frames of the animation of year [y]. *)
Definition video_vci (y : Z) : option ee.ImageCollection :=
  col ← vci; Some (ee.filter (ee.Filter_eq "year" (ee.PNum y)) col).

End notebook.

(** Cell 35: the visualisation range of [videoArgs]. *)
Record VideoArgs := { vis_min : Q; vis_max : Q; framesPerSecond : Z }.

Definition fps : Z := 2.

Definition videoArgs : VideoArgs :=
  {| vis_min := 0; vis_max := 100; framesPerSecond := fps |}.

(** ** The images the cells build *)

(** The image the scale-factor lambda returns. *)
Definition scaled (image : ee.Image) : ee.Image :=
  ee.mkImage
    ((λ b : string * ee.raster,
        (b.1, ee.pointwise Qmult b.2 (λ _, Some (1 # 10000)%Q))) <$> ee.bands image)
    (ee.props image).

(** The band ['NDVI'] of an image, fully masked when it has none. *)
Definition ndvi_band (img : ee.Image) : ee.raster :=
  default (λ _, None) (ee.band img "NDVI").

(** What [select('NDVI')] returns on an image that has the band. *)
Definition selected (img : ee.Image) : ee.Image :=
  ee.mkImage [("NDVI", ndvi_band img)] (ee.props img).

(** An image of [MODIS_NDVI]: band ['NDVI'], clipped to the region. *)
Definition clipped (img : ee.Image) : ee.Image := ee.clip roi (selected img).

(** What [select(['NDVI'], ['VCI'])] returns on a single-band image. *)
Definition renamed (img : ee.Image) : ee.Image :=
  ee.mkImage [("VCI", ndvi_band img)] (ee.props img).

(** The body of [monthly] in [col2monthly]. *)
Definition monthly_image (C : ee.ImageCollection) (y m : Z) : ee.Image :=
  ee.set "year" (ee.PNum y)
    (ee.set "month" (ee.PNum m)
       (ee.mean
          (ee.filter (ee.Filter_calendarRange m m ee.month_field)
             (ee.filter (ee.Filter_calendarRange y y ee.year_field) C)))).

(** The body of [monthly] in [min_monthly] and [max_monthly], for the
    reducer [red]. *)
Definition extremal_image (red : ee.ImageCollection → ee.Image)
    (C : ee.ImageCollection) (m : Z) : ee.Image :=
  ee.set "ID" (ee.PStr (ee.format_02d m))
    (ee.set "month" (ee.PNum m)
       (red (ee.filter (ee.Filter_calendarRange m m ee.month_field) C))).

(** The body of [month_map] in [vci_calc]. *)
Definition vci_month (col max_vals min_vals : ee.ImageCollection) (y m : Z)
  : option ee.Image :=
  let x := ee.mean (ee.filter (ee.Filter_eq "month" (ee.PNum m))
                      (ee.filter (ee.Filter_eq "year" (ee.PNum y)) col)) in
  let max_x := ee.mean (ee.filter (ee.Filter_eq "month" (ee.PNum m)) max_vals) in
  let min_x := ee.mean (ee.filter (ee.Filter_eq "month" (ee.PNum m)) min_vals) in
  x_ndvi ← ee.select ["NDVI"] ["NDVI"] x;
  min_ndvi ← ee.select ["NDVI"] ["NDVI"] min_x;
  numerator ← ee.subtract x_ndvi min_ndvi;
  max_ndvi ← ee.select ["NDVI"] ["NDVI"] max_x;
  denominator ← ee.subtract max_ndvi min_ndvi;
  ratio ← ee.divide numerator denominator;
  scaled ← ee.multiply ratio (ee.constant 100);
  Some (ee.set "year" (ee.PNum y) (ee.set "month" (ee.PNum m) scaled)).

(** ** Specification-side notions *)

(** *** The year-major order and the labels *)

(** The calendar months of the years [s..e], year-major, months ascending. *)
Definition year_months (s e : Z) : list (Z * Z) :=
  mjoin ((λ y, (λ m, (y, m)) <$> seqZ 1 12) <$> seqZ s (e - s + 1)).

(** Where month [m] of year [y] sits in that order. *)
Definition position (s y m : Z) : nat := Z.to_nat (12 * (y - s) + (m - 1)).

(** A month written with two digits. *)
Definition two_digits (m : Z) : string :=
  if m <? 10 then "0" +:+ str_int m else str_int m.

(** The band label ['mm-yyyy_VCI'] and the frame label ['mm-yyyy']. *)
Definition frame_label (m y : Z) : string :=
  two_digits m +:+ "-" +:+ str_int y.

Definition band_label (m y : Z) : string := frame_label m y +:+ "_VCI".

(** The outcome of [create_band_names()] as a function of what the globals
    [start_year] and [end_year] hold. *)
Definition band_names_outcome (sy ey : option pyval) : exn + list string :=
  match sy, ey with
  | None, _ => inl (NameError "start_year")
  | Some _, None => inl (NameError "end_year")
  | Some (PyInt s), Some (PyInt e) =>
      inr ((λ ym, band_label ym.2 ym.1) <$> year_months s e)
  | Some _, Some _ => inl TypeError
  end.

(** The outcome of the [text] comprehension as a function of what the global
    [y] holds. *)
Definition text_outcome (yv : option pyval) : exn + list string :=
  match yv with
  | None => inl (NameError "y")
  | Some v => inr ((λ n, two_digits n +:+ "-" +:+ str v) <$> seqZ 1 12)
  end.

(** The claim that the frame labels are the first seven characters of the
    band names of the animated year [y]. *)
Definition labels_agree (g : gmap string pyval) (s y : Z) : Prop :=
  ∃ labels names,
    (text g).1 = inr labels ∧ (create_band_names g).1 = inr names
    ∧ length labels = 12%nat
    ∧ ∀ k, (k < 12)%nat →
        ∃ t b, labels !! k = Some t
               ∧ names !! position s y (Z.of_nat k + 1) = Some b
               ∧ t = String.substring 0 7 b.

(** *** Assets *)

(** Every image of the asset has a band ['NDVI']. *)
Definition has_ndvi (D : ee.ImageCollection) : Prop :=
  Forall (λ img, is_Some (ee.band img "NDVI")) D.

(** The image has the single band ['NDVI']. *)
Definition only_ndvi (img : ee.Image) : Prop := ee.bandNames img = ["NDVI"].

(** All images of the collection carry the same bands. *)
Definition same_bands (col : ee.ImageCollection) : Prop :=
  ∀ i j, i ∈ col → j ∈ col → ee.bandNames i = ee.bandNames j.

(** Images taken in month [m] of year [y], and in calendar month [m] of any
    year. *)
Definition taken_in (y m : Z) (img : ee.Image) : bool :=
  match ee.props img !! "system:time_start" with
  | Some (ee.PTime y' m') => bool_decide (y' = y ∧ m' = m)
  | _ => false
  end.

Definition taken_in_month (m : Z) (img : ee.Image) : bool :=
  match ee.props img !! "system:time_start" with
  | Some (ee.PTime _ m') => bool_decide (m' = m)
  | _ => false
  end.

(** Images taken in one of the years [s..e]. *)
Definition in_years (s e : Z) (img : ee.Image) : bool :=
  match ee.props img !! "system:time_start" with
  | Some (ee.PTime y _) => (s <=? y) && (y <=? e)
  | _ => false
  end.

(** Every month of every year of the range has an image in the asset. *)
Definition complete_years (s e : Z) (D : ee.ImageCollection) : Prop :=
  ∀ y m, s ≤ y ≤ e → 1 ≤ m ≤ 12 → ∃ img, img ∈ D ∧ taken_in y m img = true.

(** *** The quantities of the index *)

(** The ['NDVI'] values at [p], inside the region of interest, of the images
    of the asset that [sel] keeps. *)
Definition ndvi_values (D : ee.ImageCollection) (sel : ee.Image → bool)
    (p : ee.pixel) : list Q :=
  omap (λ img, if roi p then ee.pixel_value img "NDVI" p else None)
       (List.filter sel D).

(** The scale factor of the NDVI band. *)
Definition scale (v : Q) : Q := (v * (1 # 10000))%Q.

(** The scaled mean NDVI of month [m] of year [y], and the scaled minimum and
    maximum NDVI over the images of calendar month [m] of any year. *)
Definition monthly_mean_ndvi (D : ee.ImageCollection) (y m : Z) (p : ee.pixel)
  : option Q := scale <$> ee.mean_of (ndvi_values D (taken_in y m) p).

Definition calendar_min_ndvi (D : ee.ImageCollection) (m : Z) (p : ee.pixel)
  : option Q := scale <$> ee.min_of (ndvi_values D (taken_in_month m) p).

Definition calendar_max_ndvi (D : ee.ImageCollection) (m : Z) (p : ee.pixel)
  : option Q := scale <$> ee.max_of (ndvi_values D (taken_in_month m) p).

(** The extrema of calendar month [m] restricted to the years [s..e]: over
    the images of those years, and over their monthly means. *)
Definition range_min_ndvi (s e : Z) (D : ee.ImageCollection) (m : Z)
    (p : ee.pixel) : option Q :=
  scale <$> ee.min_of
    (ndvi_values D (λ img, taken_in_month m img && in_years s e img) p).

Definition range_max_ndvi (s e : Z) (D : ee.ImageCollection) (m : Z)
    (p : ee.pixel) : option Q :=
  scale <$> ee.max_of
    (ndvi_values D (λ img, taken_in_month m img && in_years s e img) p).

Definition means_min_ndvi (s e : Z) (D : ee.ImageCollection) (m : Z)
    (p : ee.pixel) : option Q :=
  ee.min_of (omap (λ y, monthly_mean_ndvi D y m p) (seqZ s (e - s + 1))).

Definition means_max_ndvi (s e : Z) (D : ee.ImageCollection) (m : Z)
    (p : ee.pixel) : option Q :=
  ee.max_of (omap (λ y, monthly_mean_ndvi D y m p) (seqZ s (e - s + 1))).

(** The index: the reading normalised between the two extrema, times 100
    (with [Qdiv], [0] when the extrema coincide). *)
Definition vci_value (x mn mx : Q) : Q := ((x - mn) / (mx - mn) * 100)%Q.

(** The index on pixels: masked as soon as one of the three inputs is. *)
Definition vci_pixel (x mn mx : option Q) : option Q :=
  match x, mn, mx with
  | Some x, Some mn, Some mx => Some (vci_value x mn mx)
  | _, _, _ => None
  end.

(** Pixels compared up to equality of rationals. *)
Definition same_pixel : option Q → option Q → Prop := option_Forall2 Qeq.

(** The relation between a month of the range and its VCI image: the
    properties, the single band, and the value at every pixel. *)
Definition vci_image_of (D : ee.ImageCollection) (band : string)
    (ym : Z * Z) (img : ee.Image) : Prop :=
  ee.props img = <["year":=ee.PNum ym.1]> (<["month":=ee.PNum ym.2]> ∅)
  ∧ ee.bandNames img = [band]
  ∧ ∀ p, same_pixel (ee.pixel_value img band p)
           (vci_pixel (monthly_mean_ndvi D ym.1 ym.2 p)
                      (calendar_min_ndvi D ym.2 p)
                      (calendar_max_ndvi D ym.2 p)).

(** Whenever the VCI collection exists, the image of every month of the
    range is, pixel by pixel, the monthly mean normalised between the extrema
    [mn m] and [mx m]. *)
Definition vci_normalises (s e : Z) (D : ee.ImageCollection)
    (mn mx : Z → ee.pixel → option Q) : Prop :=
  ∀ col, vci s e D = Some col →
    ∀ y m, s ≤ y ≤ e → 1 ≤ m ≤ 12 →
      ∃ img,
        col !! position s y m = Some img
        ∧ ee.props img !! "year" = Some (ee.PNum y)
        ∧ ee.props img !! "month" = Some (ee.PNum m)
        ∧ ∀ p, same_pixel (ee.pixel_value img "VCI" p)
                 (vci_pixel (monthly_mean_ndvi D y m p) (mn m p) (mx m p)).

(** Every unmasked value of every band of [img] satisfies [P]. *)
Definition all_values (P : Q → Prop) (img : ee.Image) : Prop :=
  Forall (λ b : string * ee.raster, ∀ p v, b.2 p = Some v → P v) (ee.bands img).

(** Two collections with the same images: the same properties, the same
    bands and the same value at every pixel of every band. *)
Definition same_images (c1 c2 : option ee.ImageCollection) : Prop :=
  ∃ l1 l2,
    c1 = Some l1 ∧ c2 = Some l2
    ∧ Forall2 (λ i1 i2,
         ee.props i1 = ee.props i2
         ∧ ee.bandNames i1 = ee.bandNames i2
         ∧ ∀ b p, same_pixel (ee.pixel_value i1 b p) (ee.pixel_value i2 b p))
       l1 l2.

(** The claim that the extrema are computed from the monthly collection:
    they would then be determined by it. *)
Definition extrema_from_monthly (s e : Z) : Prop :=
  ∀ D1 D2, has_ndvi D1 → has_ndvi D2 →
    same_images (NDVI_Monthly s e D1) (NDVI_Monthly s e D2) →
    same_images (NDVI_mon_min D1) (NDVI_mon_min D2).

(** *** Bands, data and dependence *)

(** Every band of [img] satisfies [P]. *)
Definition all_bands (P : ee.raster → Prop) (img : ee.Image) : Prop :=
  Forall (λ b : string * ee.raster, P b.2) (ee.bands img).

(** An image without bands: [select('NDVI')] on it is an error. *)
Definition no_data (img : ee.Image) : Prop :=
  ee.bandNames img = [] ∧ ee.select ["NDVI"] ["NDVI"] img = None.

(** Two assets with the same dates and, inside the region of interest, the
    same NDVI; everything else may differ. *)
Definition same_ndvi_in_roi (D D' : ee.ImageCollection) : Prop :=
  Forall2 (λ img img',
     ee.props img !! "system:time_start" = ee.props img' !! "system:time_start"
     ∧ ∀ p, roi p = true →
            ee.pixel_value img "NDVI" p = ee.pixel_value img' "NDVI" p) D D'.

(** ** Sample data *)

(** The globals after cells 10 and 35 have run. *)
Definition globals_2001_2022 : gmap string pyval :=
  ((define_years ;; define_y) ∅).2.

(** Globals as the notebook leaves them, and the same with an unrelated
    variable changed and another one added. *)
Definition globals_other : gmap string pyval :=
  <["fps":=PyInt 2]> (<["marker":=PyStr "x"]> globals_2001_2022).

(** An image of one band ['NDVI'] with the same value everywhere, taken in
    month [m] of year [y]. *)
Definition flat_image (y m : Z) (v : Q) : ee.Image :=
  ee.mkImage [("NDVI", λ _, Some v)]
             {["system:time_start" := ee.PTime y m]}.

(** One image for every month of [2001] and [2002], and one of January
    [2000]. *)
Definition sample_asset : ee.ImageCollection :=
  flat_image 2000 1 2000 ::
  ((λ m, flat_image 2001 m (inject_Z (4000 + 100 * m))) <$> seqZ 1 12) ++
  ((λ m, flat_image 2002 m (inject_Z (8000 - 100 * m))) <$> seqZ 1 12).

Definition inside : ee.pixel := (0%Q, 50%Q).

(** Two January 2001 images with the same mean and different minima. *)
Definition asset_spread : ee.ImageCollection :=
  [flat_image 2001 1 2000; flat_image 2001 1 6000].

Definition asset_level : ee.ImageCollection :=
  [flat_image 2001 1 4000; flat_image 2001 1 4000].

(** An image with a further band, other values outside the region of
    interest and a further property. *)
Definition with_other_data (img : ee.Image) : ee.Image :=
  ee.mkImage
    (("EVI", λ _, Some 1%Q)
     :: ((λ b : string * ee.raster,
            (b.1, λ p, if roi p then b.2 p else Some 0%Q)) <$> ee.bands img))
    (<["note":=ee.PStr "x"]> (ee.props img)).

Definition sample_asset_other : ee.ImageCollection :=
  with_other_data <$> sample_asset.

Definition outside : ee.pixel := (10%Q, 50%Q).

(** * Properties *)

Example create_band_names_2001_2022_head :
  (λ r, match r with inr l => take 3 l | inl _ => [] end)
    (create_band_names globals_2001_2022).1
  = ["01-2001_VCI"; "02-2001_VCI"; "03-2001_VCI"].
Proof. vm_compute. reflexivity. Qed.

Example text_2022 :
  (text globals_2001_2022).1
  = inr ["01-2022"; "02-2022"; "03-2022"; "04-2022"; "05-2022"; "06-2022";
         "07-2022"; "08-2022"; "09-2022"; "10-2022"; "11-2022"; "12-2022"].
Proof. vm_compute. reflexivity. Qed.

(** ** The notebook monad *)

Lemma bind_inr {A B} (m : Py A) (k : A → Py B) g a g' :
  m g = (inr a, g') → (m ≫= k) g = k a g'.
Proof. intros Hm. unfold mbind, Py_bind, bind. by rewrite Hm. Qed.

Lemma bind_inl {A B} (m : Py A) (k : A → Py B) g e g' :
  m g = (inl e, g') → (m ≫= k) g = (inl e, g').
Proof. intros Hm. unfold mbind, Py_bind, bind. by rewrite Hm. Qed.

(** A loop whose body only computes leaves the globals alone and folds. *)
Lemma for_each_pure {A B} (f : B → A → B) (body : B → A → Py B) xs acc g :
  (∀ b a g, body b a g = (inr (f b a), g)) →
  for_each xs acc body g = (inr (foldl f acc xs), g).
Proof.
  intros Hbody. revert acc. induction xs as [|x xs IH]; intros acc; simpl.
  - reflexivity.
  - erewrite bind_inr by apply Hbody. apply IH.
Qed.

Lemma foldl_snoc {A B} (h : A → B) xs (acc : list B) :
  foldl (λ acc x, acc ++ [h x]) acc xs = acc ++ (h <$> xs).
Proof.
  revert acc. induction xs as [|x xs IH]; intros acc; simpl.
  - by rewrite app_nil_r.
  - rewrite IH. by rewrite <- app_assoc.
Qed.

Lemma join_fmap_pairs {A B C} (h : A → B → C) (xs : list A) (ys : list B) :
  mjoin ((λ x, h x <$> ys) <$> xs)
  = (λ xy, h xy.1 xy.2) <$> mjoin ((λ x, (λ y, (x, y)) <$> ys) <$> xs).
Proof.
  induction xs as [|x xs IH]; csimpl; [done|].
  rewrite fmap_app, <- IH. f_equal.
  rewrite <- list_fmap_compose. done.
Qed.

(** ** Strings *)

Lemma append_cons c s t : String c s +:+ t = String c (s +:+ t).
Proof. reflexivity. Qed.

Lemma append_assoc s t u : (s +:+ t) +:+ u = s +:+ (t +:+ u).
Proof.
  induction s as [|c s IH]; [done|]. rewrite !append_cons. by rewrite IH.
Qed.

Lemma append_length s t :
  String.length (s +:+ t) = (String.length s + String.length t)%nat.
Proof.
  induction s as [|c s IH]; [done|]. rewrite append_cons. simpl. by rewrite IH.
Qed.

Lemma append_inj_r s s' t : s +:+ t = s' +:+ t → s = s'.
Proof.
  revert s'. induction s as [|c s IH]; intros [|c' s'] Heq.
  - done.
  - apply (f_equal String.length) in Heq.
    rewrite !append_length in Heq. simpl in Heq. lia.
  - apply (f_equal String.length) in Heq.
    rewrite !append_length in Heq. simpl in Heq. lia.
  - rewrite !append_cons in Heq. injection Heq as -> Heq. f_equal. by apply IH.
Qed.

(** [str] of an int can be read back. *)
Lemma str_int_inj z z' : str_int z = str_int z' → z = z'.
Proof.
  unfold str_int. intros Heq.
  apply (f_equal NilEmpty.int_of_string) in Heq.
  rewrite !NilEmpty.isi in Heq. injection Heq as Heq.
  by apply DecimalZ.to_int_inj.
Qed.

(** Both ways of padding a month agree with the two-digit form. *)
Lemma month_padding m :
  1 ≤ m ≤ 12 →
  rjust (str_int m) 2 "0" = two_digits m ∧ zfill (str_int m) 2 = two_digits m.
Proof.
  intros Hm.
  assert (Hall : Forall (λ m, rjust (str_int m) 2 "0" = two_digits m
                              ∧ zfill (str_int m) 2 = two_digits m)
                        (seqZ 1 12)).
  { vm_compute. repeat constructor. }
  rewrite Forall_forall in Hall. apply Hall. apply elem_of_seqZ. lia.
Qed.

Lemma two_digits_length m : 1 ≤ m ≤ 12 → String.length (two_digits m) = 2%nat.
Proof.
  intros Hm.
  assert (Hall : Forall (λ m, String.length (two_digits m) = 2%nat) (seqZ 1 12)).
  { vm_compute. repeat constructor. }
  rewrite Forall_forall in Hall. apply Hall. apply elem_of_seqZ. lia.
Qed.

Lemma two_digits_inj m m' :
  1 ≤ m ≤ 12 → 1 ≤ m' ≤ 12 → two_digits m = two_digits m' → m = m'.
Proof.
  intros Hm Hm'. unfold two_digits.
  destruct (Z.ltb_spec m 10), (Z.ltb_spec m' 10); intros Heq.
  - apply str_int_inj. by injection Heq.
  - exfalso. assert (Hin : m' ∈ seqZ 10 3) by (apply elem_of_seqZ; lia).
    vm_compute in Hin. 
    repeat (apply elem_of_cons in Hin as [->|Hin]; [by vm_compute in Heq|]).
    by apply elem_of_nil in Hin.
  - exfalso. assert (Hin : m ∈ seqZ 10 3) by (apply elem_of_seqZ; lia).
    vm_compute in Hin.
    repeat (apply elem_of_cons in Hin as [->|Hin]; [by vm_compute in Heq|]).
    by apply elem_of_nil in Hin.
  - by apply str_int_inj.
Qed.

(** ** The year-major order *)

Lemma lookup_join_blocks {A} (ls : list (list A)) (k i j : nat) :
  Forall (λ l, length l = k) ls → (j < k)%nat →
  mjoin ls !! (i * k + j)%nat = ls !! i ≫= (λ l, l !! j).
Proof.
  intros Hall Hj. revert i. induction Hall as [|l ls Hl Hall IH]; intros i.
  - done.
  - destruct i as [|i]; csimpl.
    + rewrite lookup_app_l by lia. done.
    + rewrite lookup_app_r by lia.
      replace (k + i * k + j - length l)%nat with (i * k + j)%nat by lia.
      apply IH.
Qed.

Lemma length_join_blocks {A} (ls : list (list A)) (k : nat) :
  Forall (λ l, length l = k) ls → length (mjoin ls) = (length ls * k)%nat.
Proof.
  induction 1 as [|l ls Hl Hall IH]; csimpl; [done|].
  rewrite length_app, IH, Hl. done.
Qed.

Lemma year_months_length s e :
  s ≤ e → length (year_months s e) = Z.to_nat (12 * (e - s + 1)).
Proof.
  intros Hse. unfold year_months.
  rewrite (length_join_blocks _ 12).
  - rewrite length_fmap, length_seqZ. lia.
  - apply Forall_fmap, Forall_true. intros y. unfold compose.
    by rewrite length_fmap, length_seqZ.
Qed.

Lemma year_months_lookup s e y m :
  s ≤ y ≤ e → 1 ≤ m ≤ 12 →
  year_months s e !! position s y m = Some (y, m).
Proof.
  intros Hy Hm. unfold year_months, position.
  replace (Z.to_nat (12 * (y - s) + (m - 1)))
    with (Z.to_nat (y - s) * 12 + Z.to_nat (m - 1))%nat by lia.
  rewrite (lookup_join_blocks _ 12).
  - rewrite list_lookup_fmap.
    rewrite (lookup_seqZ_lt s (e - s + 1) (Z.to_nat (y - s))) by lia.
    cbn [fmap option_fmap option_map mbind option_bind].
    rewrite list_lookup_fmap.
    rewrite (lookup_seqZ_lt 1 12 (Z.to_nat (m - 1))) by lia.
    cbn [fmap option_fmap option_map]. do 2 f_equal; lia.
  - apply Forall_fmap, Forall_true. intros y'. unfold compose.
    by rewrite length_fmap, length_seqZ.
  - lia.
Qed.

Lemma elem_of_year_months s e y m :
  (y, m) ∈ year_months s e ↔ s ≤ y ≤ e ∧ 1 ≤ m ≤ 12.
Proof.
  unfold year_months. rewrite list_elem_of_join. split.
  - intros (l & Hin & Hl). apply list_elem_of_fmap in Hl as (y' & -> & Hy').
    apply list_elem_of_fmap in Hin as (m' & [= -> ->] & Hm').
    apply elem_of_seqZ in Hy', Hm'. lia.
  - intros [Hy Hm]. exists ((λ m, (y, m)) <$> seqZ 1 12). split.
    + apply list_elem_of_fmap. exists m. split; [done|]. apply elem_of_seqZ. lia.
    + apply list_elem_of_fmap. exists y. split; [done|]. apply elem_of_seqZ. lia.
Qed.

Lemma NoDup_pairs {A B} (xs : list A) (ys : list B) :
  NoDup xs → NoDup ys →
  NoDup (mjoin ((λ x, (λ y, (x, y)) <$> ys) <$> xs)).
Proof.
  intros Hxs Hys. induction Hxs as [|x xs Hx Hxs IH]; csimpl.
  - constructor.
  - apply NoDup_app. split_and!.
    + apply NoDup_fmap_2; [|done]. by intros ?? [=].
    + intros [x' y'] Hin Hin'.
      apply list_elem_of_fmap in Hin as (? & [= -> ->] & _).
      apply list_elem_of_join in Hin' as (l & Hin' & Hl).
      apply list_elem_of_fmap in Hl as (x'' & -> & Hx'').
      apply list_elem_of_fmap in Hin' as (? & [= -> ->] & _). done.
    + done.
Qed.

Lemma year_months_NoDup s e : NoDup (year_months s e).
Proof. apply NoDup_pairs; apply NoDup_seqZ. Qed.

(** ** What the two helpers return *)

Lemma comprehension_pure {A B} (f : A → B) (e : A → Py B) xs g :
  (∀ a, e a g = (inr (f a), g)) →
  comprehension xs e g = (inr (f <$> xs), g).
Proof.
  intros He. induction xs as [|x xs IH]; simpl; [done|].
  erewrite bind_inr by apply He. erewrite bind_inr by apply IH. done.
Qed.

Lemma foldl_foldl_snoc {A B C} (h : A → B → C) (ys : list A) (ms : list B) acc :
  foldl (λ acc y, foldl (λ acc m, acc ++ [h y m]) acc ms) acc ys
  = acc ++ mjoin ((λ y, h y <$> ms) <$> ys).
Proof.
  revert acc. induction ys as [|y ys IH]; intros acc; csimpl.
  - by rewrite app_nil_r.
  - rewrite IH, foldl_snoc. by rewrite <- app_assoc.
Qed.

(** The labels [create_band_names] builds for the years [s..e]. *)
Lemma built_labels s e :
  mjoin ((λ y, (λ m, rjust (str (PyInt m)) 2 "0" +:+ "-"
                       +:+ str (PyInt y) +:+ "_VCI") <$> seqZ 1 12)
           <$> seqZ s (e + 1 - s))
  = (λ ym, band_label ym.2 ym.1) <$> year_months s e.
Proof.
  rewrite join_fmap_pairs. replace (e + 1 - s) with (e - s + 1) by lia.
  fold (year_months s e). apply Forall_fmap_ext_1, Forall_forall.
  intros [y m] [_ Hm]%elem_of_year_months. simpl.
  destruct (month_padding m Hm) as [-> _].
  unfold band_label, frame_label. by rewrite !append_assoc.
Qed.

Lemma create_band_names_outcome g :
  create_band_names g
  = (band_names_outcome (g !! "start_year") (g !! "end_year"), g).
Proof.
  unfold create_band_names, band_names_outcome.
  erewrite bind_inr by reflexivity.
  destruct (g !! "start_year") as [sy|] eqn:Hs.
  2: { erewrite bind_inl; [done|]. unfold load_global. by rewrite Hs. }
  erewrite bind_inr by (unfold load_global; by rewrite Hs).
  destruct (g !! "end_year") as [ey|] eqn:He.
  2: { erewrite bind_inl; [by destruct sy|]. unfold load_global. by rewrite He. }
  erewrite bind_inr by (unfold load_global; by rewrite He).
  destruct ey as [e| |]; [|by destruct sy..].
  erewrite bind_inr by reflexivity.
  destruct sy as [s| |]; [|done..].
  erewrite bind_inr by reflexivity.
  erewrite bind_inr.
  2: { apply (for_each_pure
                (λ names year,
                   foldl (λ names month,
                            names ++ [rjust (str (PyInt month)) 2 "0" +:+ "-"
                                        +:+ str (PyInt year) +:+ "_VCI"])
                         names (seqZ 1 (13 - 1)))).
       intros names year g'. by apply for_each_pure. }
  unfold mret, Py_ret, ret. do 2 f_equal.
  rewrite (foldl_foldl_snoc
             (λ y m, rjust (str (PyInt m)) 2 "0" +:+ "-"
                       +:+ str (PyInt y) +:+ "_VCI")).
  apply built_labels.
Qed.

Lemma text_run g : text g = (text_outcome (g !! "y"), g).
Proof.
  unfold text, text_outcome.
  erewrite bind_inr by reflexivity.
  destruct (g !! "y") as [v|] eqn:Hy.
  - erewrite (comprehension_pure (λ n, zfill (str (PyInt n)) 2 +:+ "-" +:+ str v)).
    2: { intros n. erewrite bind_inr; [done|]. unfold load_global. by rewrite Hy. }
    reflexivity.
  - change (seqZ 1 (13 - 1)) with (1 :: seqZ 2 11). simpl.
    erewrite bind_inl; [done|].
    erewrite bind_inl; [done|]. unfold load_global. by rewrite Hy.
Qed.

Lemma append_inj_length s s' t t' :
  String.length s = String.length s' → s +:+ t = s' +:+ t' → s = s' ∧ t = t'.
Proof.
  revert s'. induction s as [|c s IH]; intros [|c' s'] Hlen Heq; try done.
  rewrite !append_cons in Heq. injection Heq as -> Heq.
  destruct (IH s') as [-> ->]; [by injection Hlen|done|done].
Qed.

Lemma band_label_inj m y m' y' :
  1 ≤ m ≤ 12 → 1 ≤ m' ≤ 12 →
  band_label m y = band_label m' y' → m = m' ∧ y = y'.
Proof.
  intros Hm Hm' Heq. unfold band_label, frame_label in Heq.
  apply append_inj_r in Heq.
  apply append_inj_length in Heq as [Hmm Hyy].
  - split; [by apply two_digits_inj|].
    apply str_int_inj. by injection Hyy.
  - by rewrite !two_digits_length.
Qed.

Lemma substring_prefix s t :
  String.substring 0 (String.length s) (s +:+ t) = s.
Proof.
  induction s as [|c s IH].
  - by destruct t.
  - rewrite append_cons. simpl. by rewrite IH.
Qed.

(** A year of [1000..9999] is written with four characters. *)
Lemma str_int_four_digits y : 1000 ≤ y ≤ 9999 → String.length (str_int y) = 4%nat.
Proof.
  intros Hy.
  assert (Hall : forallb (λ y, Nat.eqb (String.length (str_int y)) 4)
                         (seqZ 1000 9000) = true) by (vm_compute; reflexivity).
  rewrite forallb_forall in Hall.
  apply Nat.eqb_eq, Hall, list_elem_of_In, elem_of_seqZ. lia.
Qed.

Lemma frame_label_length m y :
  1 ≤ m ≤ 12 → 1000 ≤ y ≤ 9999 → String.length (frame_label m y) = 7%nat.
Proof.
  intros Hm Hy. unfold frame_label.
  rewrite !append_length, two_digits_length, str_int_four_digits by done. done.
Qed.

Lemma band_names_lookup s e y m :
  s ≤ y ≤ e → 1 ≤ m ≤ 12 →
  ((λ ym, band_label ym.2 ym.1) <$> year_months s e) !! position s y m
  = Some (band_label m y).
Proof.
  intros Hy Hm. rewrite list_lookup_fmap, year_months_lookup by done. done.
Qed.

Lemma band_names_NoDup s e :
  NoDup ((λ ym, band_label ym.2 ym.1) <$> year_months s e).
Proof.
  apply NoDup_fmap_2_strong; [|apply year_months_NoDup].
  intros [y m] [y' m'] [_ Hm]%elem_of_year_months [_ Hm']%elem_of_year_months Heq.
  simpl in Heq. apply band_label_inj in Heq as [-> ->]; done.
Qed.

(** ** The label helpers: purity, normal return, agreement *)

(** C4: [create_band_names] and the [text] comprehension are pure and
    deterministic.  The result of [create_band_names] (a list, or the
    exception raised) is the same in any two global states that agree on
    [start_year] and [end_year], the result of [text] is the same in any two
    that agree on [y], and neither changes the global state. *)
Theorem helpers_pure_deterministic (g1 g2 : gmap string pyval) :
  (g1 !! "start_year" = g2 !! "start_year" →
   g1 !! "end_year" = g2 !! "end_year" →
   (create_band_names g1).1 = (create_band_names g2).1)
  ∧ (g1 !! "y" = g2 !! "y" → (text g1).1 = (text g2).1)
  ∧ (create_band_names g1).2 = g1
  ∧ (text g1).2 = g1.
Proof.
  rewrite !create_band_names_outcome, !text_run. simpl. split_and!.
  - by intros -> ->.
  - by intros ->.
  - done.
  - done.
Qed.

Lemma helpers_pure_deterministic_witness :
  (create_band_names globals_2001_2022).1 = (create_band_names globals_other).1
  ∧ (text globals_2001_2022).1 = (text globals_other).1.
Proof.
  destruct (helpers_pure_deterministic globals_2001_2022 globals_other)
    as (Hnames & Htext & _ & _).
  split.
  - apply Hnames; vm_compute; reflexivity.
  - apply Htext; vm_compute; reflexivity.
Defined.



(** The error paths that remain: an unbound or non-int year. *)
Example create_band_names_unbound :
  (create_band_names ∅).1 = inl (NameError "start_year").
Proof. reflexivity. Qed.

Example create_band_names_malformed :
  (create_band_names (<["end_year":=PyStr "2022"]> globals_2001_2022)).1
  = inl TypeError.
Proof. vm_compute. reflexivity. Qed.

(** The labels of the year 999. *)
Example labels_of_999 :
  let g : gmap string pyval :=
    <["y":=PyInt 999]> (<["end_year":=PyInt 999]> (<["start_year":=PyInt 999]> ∅)) in
  (λ r, match r with inr l => take 2 l | inl _ => [] end) (text g).1
  = ["01-999"; "02-999"]
  ∧ (λ r, match r with inr l => take 2 l | inl _ => [] end) (create_band_names g).1
    = ["01-999_VCI"; "02-999_VCI"].
Proof. split; vm_compute; reflexivity. Qed.

(** C9, as stated, fails for a year that [str] does not write with four
    characters: for the year 999 the first frame label is ['01-999'] and the
    first seven characters of the band name are ['01-999_']. *)
Lemma labels_agree_fails_for_999 :
  let g : gmap string pyval :=
    <["y":=PyInt 999]> (<["end_year":=PyInt 999]> (<["start_year":=PyInt 999]> ∅)) in
  ¬ labels_agree g 999 999.
Proof.
  intros g (labels & names & Ht & Hn & _ & Hk).
  destruct (Hk 0%nat) as (t & b & Hlt & Hnb & Heq); [lia|].
  vm_compute in Ht. injection Ht as <-.
  vm_compute in Hn. injection Hn as <-.
  vm_compute in Hlt. injection Hlt as <-.
  vm_compute in Hnb. injection Hnb as <-.
  vm_compute in Heq. discriminate Heq.
Qed.

(** C9, amended: for an animated year [y] of the range that is written with
    four digits, [text] has twelve entries and entry [k] is the first seven
    characters of the band name of month [k+1] of [y]; for any year of the
    range the band name is the frame label followed by ['_VCI']. *)
Theorem text_matches_band_names (g : gmap string pyval) (s e y : Z) :
  g !! "start_year" = Some (PyInt s) → g !! "end_year" = Some (PyInt e) →
  g !! "y" = Some (PyInt y) → s ≤ y ≤ e →
  (1000 ≤ y ≤ 9999 → labels_agree g s y)
  ∧ ∃ labels names,
      text g = (inr labels, g) ∧ create_band_names g = (inr names, g)
      ∧ length labels = 12%nat
      ∧ ∀ k, (k < 12)%nat →
          ∃ t, labels !! k = Some t
               ∧ names !! position s y (Z.of_nat k + 1) = Some (t +:+ "_VCI").
Proof.
  intros Hs He Hy Hrange.
  assert (Hlabel : ∀ k, (k < 12)%nat →
            ((λ n, two_digits n +:+ "-" +:+ str (PyInt y)) <$> seqZ 1 12) !! k
            = Some (frame_label (Z.of_nat k + 1) y)).
  { intros k Hk. rewrite list_lookup_fmap, lookup_seqZ_lt by lia.
    cbn [fmap option_fmap option_map str]. unfold frame_label.
    do 3 f_equal. lia. }
  split.
  - intros Hfour.
    exists ((λ n, two_digits n +:+ "-" +:+ str (PyInt y)) <$> seqZ 1 12),
           ((λ ym, band_label ym.2 ym.1) <$> year_months s e).
    rewrite text_run, create_band_names_outcome, Hs, He, Hy.
    cbn [fst snd band_names_outcome text_outcome].
    split_and!; [done|done|by rewrite length_fmap, length_seqZ|].
    intros k Hk.
    exists (frame_label (Z.of_nat k + 1) y), (band_label (Z.of_nat k + 1) y).
    split_and!.
    + by apply Hlabel.
    + apply band_names_lookup; lia.
    + unfold band_label.
      rewrite <- (frame_label_length (Z.of_nat k + 1) y) by lia.
      by rewrite substring_prefix.
  - exists ((λ n, two_digits n +:+ "-" +:+ str (PyInt y)) <$> seqZ 1 12),
           ((λ ym, band_label ym.2 ym.1) <$> year_months s e).
    rewrite text_run, create_band_names_outcome, Hs, He, Hy.
    cbn [fst snd band_names_outcome text_outcome].
    split_and!; [done|done|by rewrite length_fmap, length_seqZ|].
    intros k Hk. exists (frame_label (Z.of_nat k + 1) y). split.
    + by apply Hlabel.
    + apply band_names_lookup; lia.
Qed.

Lemma text_matches_band_names_witness :
  labels_agree globals_2001_2022 2001 2022.
Proof.
  apply (text_matches_band_names globals_2001_2022 2001 2022 2022);
    [vm_compute; reflexivity..|lia|lia].
Defined.

(** ** Earth Engine primitives *)

Lemma assoc_fmap (F : ee.raster → ee.raster) name bs :
  ee.assoc name ((λ b : string * ee.raster, (b.1, F b.2)) <$> bs)
  = F <$> ee.assoc name bs.
Proof.
  induction bs as [|[n r] bs IH]; csimpl; [done|].
  destruct (decide (n = name)); [done|apply IH].
Qed.

Lemma fst_fmap_bands (F : string * ee.raster → ee.raster)
    (bs : list (string * ee.raster)) :
  ((λ b : string * ee.raster, (b.1, F b)) <$> bs).*1 = bs.*1.
Proof. induction bs as [|[n r] bs IH]; csimpl; [done|]. by rewrite IH. Qed.

Lemma assoc_None name bs : name ∉ bs.*1 → ee.assoc name bs = None.
Proof.
  induction bs as [|[n r] bs IH]; [done|]. csimpl.
  intros Hnot. rewrite decide_False.
  - apply IH. intros Hin. apply Hnot. by apply list_elem_of_further.
  - intros ->. apply Hnot. apply list_elem_of_here.
Qed.

Lemma assoc_fmap_name (G : string → ee.raster) name bs :
  ee.assoc name ((λ b : string * ee.raster, (b.1, G b.1)) <$> bs)
  = if decide (name ∈ bs.*1) then Some (G name) else None.
Proof.
  induction bs as [|[n r] bs IH].
  - destruct (decide (name ∈ [].*1)) as [Hin|]; [by apply elem_of_nil in Hin|done].
  - rewrite !fmap_cons. cbn [ee.assoc fst snd].
    destruct (decide (n = name)) as [->|Hne].
    + by rewrite decide_True by apply list_elem_of_here.
    + rewrite IH. destruct (decide (name ∈ bs.*1)) as [Hin|Hnot].
      * by rewrite decide_True by by apply list_elem_of_further.
      * rewrite decide_False; [done|].
        intros [?|?]%elem_of_cons; congruence.
Qed.

(** Copying the listed properties over an arbitrary destination. *)
Lemma copy_lookup (src dest : gmap string ee.propval) names k :
  foldr (λ k acc, match src !! k with
                  | Some v => <[k:=v]> acc
                  | None => acc
                  end) dest names !! k
  = if decide (k ∈ names)
    then match src !! k with Some v => Some v | None => dest !! k end
    else dest !! k.
Proof.
  induction names as [|n names IH]; cbn [foldr].
  - destruct (decide (k ∈ [])) as [Hin|]; [by apply elem_of_nil in Hin|done].
  - destruct (decide (n = k)) as [->|Hne].
    + rewrite decide_True by apply list_elem_of_here.
      destruct (src !! k) as [v|] eqn:Hk.
      * by rewrite lookup_insert_eq.
      * rewrite IH. by destruct (decide (k ∈ names)).
    + assert (Hstep : ∀ m : gmap string ee.propval,
                match src !! n with Some v => <[n:=v]> m | None => m end !! k
                = m !! k).
      { intros m. destruct (src !! n); [by rewrite lookup_insert_ne|done]. }
      rewrite Hstep, IH.
      destruct (decide (k ∈ names)) as [Hin|Hnin].
      * by rewrite decide_True by by apply list_elem_of_further.
      * rewrite decide_False; [done|].
        intros [?|?]%elem_of_cons; congruence.
Qed.

(** Copying every property of [src] onto an image without properties gives
    back the properties of [src]. *)
Lemma copy_all_properties (src : gmap string ee.propval) :
  foldr (λ k acc, match src !! k with
                  | Some v => <[k:=v]> acc
                  | None => acc
                  end) ∅ (map_to_list src).*1 = src.
Proof.
  apply map_eq. intros k. rewrite copy_lookup, lookup_empty.
  destruct (src !! k) as [v|] eqn:Hk.
  - rewrite decide_True; [done|].
    apply list_elem_of_fmap. exists (k, v). split; [done|].
    by apply elem_of_map_to_list.
  - by destruct (decide _).
Qed.

Lemma multiply_constant image c :
  ee.multiply image (ee.constant c)
  = Some (ee.mkImage
            ((λ b : string * ee.raster,
                (b.1, ee.pointwise Qmult b.2 (λ _, Some c))) <$> ee.bands image) ∅).
Proof.
  unfold ee.multiply, ee.binop, ee.constant. simpl.
  by destruct (ee.bands image) as [|[n r] [|b bs]].
Qed.

Lemma apply_scale_factor_scaled image : apply_scale_factor image = Some (scaled image).
Proof.
  unfold apply_scale_factor. rewrite multiply_constant. simpl.
  unfold ee.copyProperties, ee.propertyNames, scaled. simpl.
  by rewrite copy_all_properties.
Qed.

Lemma mapM_total {A B} (f : A → option B) (g : A → B) l :
  (∀ x, x ∈ l → f x = Some (g x)) → mapM f l = Some (g <$> l).
Proof.
  intros Hf. apply mapM_Some, Forall2_fmap_r, Forall_Forall2_diag, Forall_forall.
  intros x Hx. by apply Hf.
Qed.

Lemma pixel_value_scaled image b p :
  ee.pixel_value (scaled image) b p
  = (λ v, v * (1 # 10000))%Q <$> ee.pixel_value image b p.
Proof.
  unfold ee.pixel_value, ee.band, scaled. cbn [ee.bands].
  rewrite (assoc_fmap (λ r, ee.pointwise Qmult r (λ _, Some (1 # 10000)%Q))).
  destruct (ee.assoc b (ee.bands image)) as [r|]; simpl; [|done].
  unfold ee.pointwise. by destruct (r p).
Qed.

(** ** The scale-factor map *)

(** C7: each scale-factor map changes pixel values only.  On any collection
    it succeeds; every output image has exactly the properties of its input
    (so ['month'], ['year'] and ['ID'] are unchanged and every
    [ee.Filter.eq] selects the same images), the same band names, and each
    unmasked pixel value multiplied by 0.0001. *)
Theorem scale_factor_keeps_properties (col : ee.ImageCollection) :
  ∃ out,
    ee.map apply_scale_factor col = Some out
    ∧ Forall2 (λ image o,
         ee.props o = ee.props image
         ∧ (∀ name v, ee.Filter_eq name v o = ee.Filter_eq name v image)
         ∧ ee.bandNames o = ee.bandNames image
         ∧ ∀ b p, ee.pixel_value o b p
                  = (λ v, v * (1 # 10000))%Q <$> ee.pixel_value image b p)
       col out.
Proof.
  exists (scaled <$> col). split.
  - apply mapM_total. intros image _. apply apply_scale_factor_scaled.
  - apply Forall2_fmap_r, Forall_Forall2_diag, Forall_forall.
    intros image _. split_and!.
    + done.
    + done.
    + unfold ee.bandNames, scaled. cbn [ee.bands]. apply fst_fmap_bands.
    + apply pixel_value_scaled.
Qed.

(** ** From the asset to the monthly and the extremal collections *)

Lemma select_ndvi img :
  is_Some (ee.band img "NDVI") → ee.select ["NDVI"] ["NDVI"] img = Some (selected img).
Proof.
  intros [r Hr]. unfold ee.select, selected, ndvi_band. simpl. by rewrite Hr.
Qed.

Lemma MODIS_NDVI_clipped D :
  has_ndvi D →
  MODIS_NDVI D = Some (clipped <$> D).
Proof.
  intros HD. unfold MODIS_NDVI, MODIS_NDVI_raw, ee.map.
  rewrite (mapM_total _ selected).
  - simpl. rewrite (mapM_total _ (ee.clip roi)) by done.
    by rewrite <- list_fmap_compose.
  - unfold has_ndvi in HD. rewrite Forall_forall in HD.
    intros img Himg. by apply select_ndvi, HD.
Qed.

Lemma pixel_value_clipped img p :
  is_Some (ee.band img "NDVI") →
  ee.pixel_value (clipped img) "NDVI" p
  = if roi p then ee.pixel_value img "NDVI" p else None.
Proof.
  intros [r Hr]. unfold ee.pixel_value, clipped, selected, ndvi_band.
  rewrite Hr. reflexivity.
Qed.

Lemma filter_fmap {A B} (P : B → bool) (f : A → B) l :
  List.filter P (f <$> l) = f <$> List.filter (λ x, P (f x)) l.
Proof.
  induction l as [|x l IH]; csimpl; [done|].
  destruct (P (f x)); csimpl; by rewrite IH.
Qed.

Lemma filter_filter {A} (P Q : A → bool) l :
  List.filter Q (List.filter P l) = List.filter (λ x, P x && Q x) l.
Proof.
  induction l as [|x l IH]; simpl; [done|].
  destruct (P x); simpl; [|done]. destruct (Q x); by rewrite IH.
Qed.

Lemma calendar_year_month y m img :
  (ee.Filter_calendarRange y y ee.year_field img
   && ee.Filter_calendarRange m m ee.month_field img) = taken_in y m img.
Proof.
  unfold ee.Filter_calendarRange, taken_in.
  destruct (ee.props img !! "system:time_start") as [[| |y' m']|]; try done.
  rewrite !Z.leb_refl.
  apply eq_true_iff_eq. rewrite bool_decide_eq_true, !andb_true_iff, !Z.leb_le. lia.
Qed.

Lemma calendar_month m img :
  ee.Filter_calendarRange m m ee.month_field img = taken_in_month m img.
Proof.
  unfold ee.Filter_calendarRange, taken_in_month.
  destruct (ee.props img !! "system:time_start") as [[| |y' m']|]; try done.
  rewrite !Z.leb_refl.
  apply eq_true_iff_eq. rewrite bool_decide_eq_true, !andb_true_iff, !Z.leb_le. lia.
Qed.

Lemma values_at_clipped (L : ee.ImageCollection) p :
  has_ndvi L →
  ee.values_at (clipped <$> L) "NDVI" p
  = omap (λ img, if roi p then ee.pixel_value img "NDVI" p else None) L.
Proof.
  unfold ee.values_at, has_ndvi.
  induction 1 as [|img L Himg HL IH]; [done|].
  csimpl. rewrite pixel_value_clipped by done. by rewrite IH.
Qed.

Lemma Forall_filter {A} (P : A → Prop) (f : A → bool) l :
  Forall P l → Forall P (List.filter f l).
Proof.
  rewrite !Forall_forall. intros Hl x Hx%list_elem_of_In%filter_In.
  apply Hl, list_elem_of_In, Hx.
Qed.

(** The values the monthly mean of [(y, m)] is taken over. *)
Lemma values_year_month D y m p :
  has_ndvi D →
  ee.values_at
    (ee.filter (ee.Filter_calendarRange m m ee.month_field)
       (ee.filter (ee.Filter_calendarRange y y ee.year_field) (clipped <$> D)))
    "NDVI" p
  = ndvi_values D (taken_in y m) p.
Proof.
  intros HD. unfold ee.filter, ndvi_values.
  rewrite filter_filter, filter_fmap.
  rewrite values_at_clipped by by apply Forall_filter.
  f_equal. apply List.filter_ext. intros img.
  exact (calendar_year_month y m (clipped img)).
Qed.

(** The values the extrema of calendar month [m] are taken over. *)
Lemma values_month D m p :
  has_ndvi D →
  ee.values_at
    (ee.filter (ee.Filter_calendarRange m m ee.month_field) (clipped <$> D))
    "NDVI" p
  = ndvi_values D (taken_in_month m) p.
Proof.
  intros HD. unfold ee.filter, ndvi_values.
  rewrite filter_fmap.
  rewrite values_at_clipped by by apply Forall_filter.
  f_equal. apply List.filter_ext. intros img.
  exact (calendar_month m (clipped img)).
Qed.

Lemma filter_year_month D y m :
  ee.filter (ee.Filter_calendarRange m m ee.month_field)
    (ee.filter (ee.Filter_calendarRange y y ee.year_field) (clipped <$> D))
  = clipped <$> List.filter (taken_in y m) D.
Proof.
  unfold ee.filter. rewrite filter_filter, filter_fmap. f_equal.
  apply List.filter_ext. intros img. exact (calendar_year_month y m (clipped img)).
Qed.

Lemma filter_month D m :
  ee.filter (ee.Filter_calendarRange m m ee.month_field) (clipped <$> D)
  = clipped <$> List.filter (taken_in_month m) D.
Proof.
  unfold ee.filter. rewrite filter_fmap. f_equal.
  apply List.filter_ext. intros img. exact (calendar_month m (clipped img)).
Qed.

(** *** Reducers on single-band collections *)

Lemma only_ndvi_bands img :
  only_ndvi img → ∃ r, ee.bands img = [("NDVI", r)].
Proof.
  unfold only_ndvi, ee.bandNames.
  destruct (ee.bands img) as [|[n r] [|b bs]]; intros [=]. subst. eauto.
Qed.

Lemma only_ndvi_clipped (L : ee.ImageCollection) : Forall only_ndvi (clipped <$> L).
Proof. apply Forall_fmap, Forall_true. done. Qed.

Lemma pixel_value_reduce f col p :
  Forall only_ndvi col → f [] = None →
  ee.pixel_value (ee.reduce f col) "NDVI" p = f (ee.values_at col "NDVI" p).
Proof.
  intros Hcol Hf. destruct Hcol as [|img col Himg Hcol]; [done|].
  apply only_ndvi_bands in Himg as [r Hr].
  unfold ee.pixel_value, ee.band, ee.reduce. cbn [ee.bands]. rewrite Hr. done.
Qed.

Lemma bandNames_reduce f col :
  Forall only_ndvi col → col ≠ [] → only_ndvi (ee.reduce f col).
Proof.
  intros Hcol Hne. destruct Hcol as [|img col Himg Hcol]; [done|].
  apply only_ndvi_bands in Himg as [r Hr].
  unfold only_ndvi, ee.bandNames, ee.reduce. cbn [ee.bands]. by rewrite Hr.
Qed.

(** *** The images of the three derived collections *)

Lemma col2monthly_images s e C :
  col2monthly s e C = (λ ym, monthly_image C ym.1 ym.2) <$> year_months s e.
Proof.
  unfold col2monthly, ee.fromImages, ee.List_sequence.
  change (12 - 1 + 1) with 12.
  exact (join_fmap_pairs (monthly_image C) (seqZ s (e - s + 1)) (seqZ 1 12)).
Qed.

Lemma min_monthly_images C :
  min_monthly C = extremal_image ee.min C <$> seqZ 1 12.
Proof. reflexivity. Qed.

Lemma max_monthly_images C :
  max_monthly C = extremal_image ee.max C <$> seqZ 1 12.
Proof. reflexivity. Qed.

Section derived.

Variables (s e : Z) (D : ee.ImageCollection).
Hypothesis HD : has_ndvi D.

Lemma NDVI_Monthly_images :
  NDVI_Monthly s e D
  = Some ((λ ym, scaled (monthly_image (clipped <$> D) ym.1 ym.2))
            <$> year_months s e).
Proof.
  unfold NDVI_Monthly. rewrite MODIS_NDVI_clipped by done.
  cbn [mbind option_bind].
  unfold ee.map. rewrite (mapM_total _ scaled).
  - rewrite col2monthly_images. by rewrite <- list_fmap_compose.
  - intros img _. apply apply_scale_factor_scaled.
Qed.

Lemma NDVI_mon_min_images :
  NDVI_mon_min D
  = Some ((λ m, scaled (extremal_image ee.min (clipped <$> D) m)) <$> seqZ 1 12).
Proof.
  unfold NDVI_mon_min. rewrite MODIS_NDVI_clipped by done.
  cbn [mbind option_bind].
  unfold ee.map. rewrite (mapM_total _ scaled).
  - rewrite min_monthly_images. by rewrite <- list_fmap_compose.
  - intros img _. apply apply_scale_factor_scaled.
Qed.

Lemma NDVI_mon_max_images :
  NDVI_mon_max D
  = Some ((λ m, scaled (extremal_image ee.max (clipped <$> D) m)) <$> seqZ 1 12).
Proof.
  unfold NDVI_mon_max. rewrite MODIS_NDVI_clipped by done.
  cbn [mbind option_bind].
  unfold ee.map. rewrite (mapM_total _ scaled).
  - rewrite max_monthly_images. by rewrite <- list_fmap_compose.
  - intros img _. apply apply_scale_factor_scaled.
Qed.

Lemma monthly_image_value y m p :
  ee.pixel_value (scaled (monthly_image (clipped <$> D) y m)) "NDVI" p
  = monthly_mean_ndvi D y m p.
Proof.
  rewrite pixel_value_scaled. unfold monthly_mean_ndvi. f_equal.
  rewrite <- values_year_month by done.
  apply (pixel_value_reduce ee.mean_of); [|done].
  rewrite filter_year_month. apply only_ndvi_clipped.
Qed.

Lemma min_image_value m p :
  ee.pixel_value (scaled (extremal_image ee.min (clipped <$> D) m)) "NDVI" p
  = calendar_min_ndvi D m p.
Proof.
  rewrite pixel_value_scaled. unfold calendar_min_ndvi. f_equal.
  rewrite <- values_month by done.
  apply (pixel_value_reduce ee.min_of); [|done].
  rewrite filter_month. apply only_ndvi_clipped.
Qed.

Lemma max_image_value m p :
  ee.pixel_value (scaled (extremal_image ee.max (clipped <$> D) m)) "NDVI" p
  = calendar_max_ndvi D m p.
Proof.
  rewrite pixel_value_scaled. unfold calendar_max_ndvi. f_equal.
  rewrite <- values_month by done.
  apply (pixel_value_reduce ee.max_of); [|done].
  rewrite filter_month. apply only_ndvi_clipped.
Qed.

End derived.

(** ** The VCI collection *)

Lemma mapM_cons {A B} (f : A → option B) x l :
  mapM f (x :: l) = (y ← f x; k ← mapM f l; Some (y :: k)).
Proof. reflexivity. Qed.

Lemma mapM_app {A B} (f : A → option B) l k :
  mapM f (l ++ k) = (a ← mapM f l; b ← mapM f k; Some (a ++ b)).
Proof.
  induction l as [|x l IH].
  - change ([] ++ k) with k. by destruct (mapM f k).
  - rewrite <- app_comm_cons, !mapM_cons, IH.
    destruct (f x); [|done]. cbn [mbind option_bind].
    destruct (mapM f l); [|done]. cbn [mbind option_bind].
    by destruct (mapM f k).
Qed.

Lemma mapM_fmap {A B C} (f : B → option C) (g : A → B) l :
  mapM f (g <$> l) = mapM (λ x, f (g x)) l.
Proof.
  induction l as [|x l IH]; [done|].
  rewrite fmap_cons, !mapM_cons, IH. done.
Qed.

Lemma nested_mapM {A B C} (f : A → B → option C) xs ys :
  (images ← mapM (λ x, mapM (f x) ys) xs; Some (mjoin images))
  = mapM (λ xy, f xy.1 xy.2) (mjoin ((λ x, (λ y, (x, y)) <$> ys) <$> xs)).
Proof.
  induction xs as [|x xs IH]; [done|].
  rewrite !fmap_cons.
  change (mjoin (((λ y, (x, y)) <$> ys)
                 :: ((λ x, (λ y, (x, y)) <$> ys) <$> xs)))
    with (((λ y, (x, y)) <$> ys)
          ++ mjoin ((λ x, (λ y, (x, y)) <$> ys) <$> xs)).
  rewrite mapM_cons, mapM_app, mapM_fmap, <- IH.
  cbn [fst snd].
  destruct (mapM (f x) ys); [|done]. cbn [mbind option_bind].
  by destruct (mapM (λ x, mapM (f x) ys) xs).
Qed.

Lemma vci_calc_months s e col max_vals min_vals :
  vci_calc s e col max_vals min_vals
  = mapM (λ ym, vci_month col max_vals min_vals ym.1 ym.2) (year_months s e).
Proof.
  unfold vci_calc, ee.fromImages, ee.List_sequence.
  change (12 - 1 + 1) with 12.
  exact (nested_mapM (vci_month col max_vals min_vals)
           (seqZ s (e - s + 1)) (seqZ 1 12)).
Qed.

Lemma filter_none {A B} (P : B → bool) (f : A → B) (l : list A) :
  (∀ a, a ∈ l → P (f a) = false) → List.filter P (f <$> l) = [].
Proof.
  induction l as [|x l IH]; intros HP; csimpl; [done|].
  rewrite HP by apply list_elem_of_here.
  apply IH. intros a Ha. by apply HP, list_elem_of_further.
Qed.

(** Filtering an indexed family on a key that identifies the index. *)
Lemma filter_unique {A B} (P : B → bool) (f : A → B) (l : list A) a :
  NoDup l → a ∈ l → (∀ a', a' ∈ l → P (f a') = true ↔ a' = a) →
  List.filter P (f <$> l) = [f a].
Proof.
  intros Hnd. induction Hnd as [|x l Hx Hnd IH]; intros Ha HP.
  - by apply elem_of_nil in Ha.
  - csimpl. destruct (P (f x)) eqn:Hpx.
    + apply HP in Hpx as ->; [|apply list_elem_of_here].
      f_equal. apply filter_none. intros a' Ha'.
      apply not_true_is_false. intros Htrue.
      apply HP in Htrue; [|by apply list_elem_of_further]. by subst.
    + apply IH.
      * apply elem_of_cons in Ha as [->|?]; [|done].
        rewrite (proj2 (HP x (list_elem_of_here _ _))) in Hpx; done.
      * intros a' Ha'. by apply HP, list_elem_of_further.
Qed.

Lemma mean_single_value (img : ee.Image) p :
  ee.mean_of (ee.values_at [img] "NDVI" p)
  = (λ v, (v + 0) / 1)%Q <$> ee.pixel_value img "NDVI" p.
Proof.
  unfold ee.values_at. csimpl. by destruct (ee.pixel_value img "NDVI" p).
Qed.

Lemma vci_value_single x mn mx :
  ((((x + 0) / 1 - (mn + 0) / 1) / ((mx + 0) / 1 - (mn + 0) / 1)) * 100
   == vci_value x mn mx)%Q.
Proof.
  unfold vci_value.
  assert (H1 : ∀ v : Q, ((v + 0) / 1 == v)%Q) by (intros v; field).
  by rewrite !H1.
Qed.

Lemma vci_month_spec col max_vals min_vals y m ix imx imn :
  ee.filter (ee.Filter_eq "month" (ee.PNum m))
    (ee.filter (ee.Filter_eq "year" (ee.PNum y)) col) = [ix] →
  ee.filter (ee.Filter_eq "month" (ee.PNum m)) max_vals = [imx] →
  ee.filter (ee.Filter_eq "month" (ee.PNum m)) min_vals = [imn] →
  only_ndvi ix → only_ndvi imx → only_ndvi imn →
  ∃ img,
    vci_month col max_vals min_vals y m = Some img
    ∧ ee.props img = <["year":=ee.PNum y]> (<["month":=ee.PNum m]> ∅)
    ∧ only_ndvi img
    ∧ ∀ p, same_pixel (ee.pixel_value img "NDVI" p)
             (vci_pixel (ee.pixel_value ix "NDVI" p)
                        (ee.pixel_value imn "NDVI" p)
                        (ee.pixel_value imx "NDVI" p)).
Proof.
  intros Hx Hmx Hmn [rx Hrx]%only_ndvi_bands [rmx Hrmx]%only_ndvi_bands
    [rmn Hrmn]%only_ndvi_bands.
  unfold vci_month. rewrite Hx, Hmx, Hmn.
  unfold ee.mean, ee.reduce. rewrite Hrx, Hrmx, Hrmn.
  eexists. split; [reflexivity|]. split_and!.
  - reflexivity.
  - reflexivity.
  - intros p.
    unfold ee.pixel_value at 1, ee.band, ee.pointwise. cbn -[ee.values_at ee.mean_of Qdiv Qminus Qmult Qplus].
    rewrite decide_True by done. cbn [mbind option_bind].
    rewrite !mean_single_value.
    destruct (ee.pixel_value ix "NDVI" p) as [x|],
             (ee.pixel_value imn "NDVI" p) as [mn|],
             (ee.pixel_value imx "NDVI" p) as [mx|]; cbn -[Qdiv Qminus Qmult Qplus]; try constructor.
    apply vci_value_single.
Qed.

Lemma select_vci img :
  only_ndvi img → ee.select ["NDVI"] ["VCI"] img = Some (renamed img).
Proof.
  intros [r Hr]%only_ndvi_bands.
  unfold ee.select, renamed, ndvi_band, ee.band. rewrite Hr. reflexivity.
Qed.

Lemma pixel_value_renamed img p :
  only_ndvi img →
  ee.pixel_value (renamed img) "VCI" p = ee.pixel_value img "NDVI" p.
Proof.
  intros [r Hr]%only_ndvi_bands.
  unfold ee.pixel_value, renamed, ndvi_band, ee.band. rewrite Hr. reflexivity.
Qed.

Lemma only_ndvi_scaled img : only_ndvi img → only_ndvi (scaled img).
Proof.
  unfold only_ndvi, ee.bandNames, scaled. cbn [ee.bands].
  by rewrite fst_fmap_bands.
Qed.

Lemma taken_in_taken_in_month y m img :
  taken_in y m img = true → taken_in_month m img = true.
Proof.
  unfold taken_in, taken_in_month.
  destruct (ee.props img !! "system:time_start") as [[| |y' m']|]; try done.
  rewrite !bool_decide_eq_true. by intros [_ ->].
Qed.

Lemma filter_nonempty {A} (f : A → bool) (l : list A) x :
  x ∈ l → f x = true → List.filter f l ≠ [].
Proof.
  intros Hx Hf Hnil.
  assert (Hin : In x (List.filter f l)) by (apply filter_In; by rewrite <- list_elem_of_In).
  by rewrite Hnil in Hin.
Qed.

Lemma Forall2_elem_impl {A B} (P Q : A → B → Prop) l k :
  Forall2 P l k → (∀ x y, x ∈ l → P x y → Q x y) → Forall2 Q l k.
Proof.
  induction 1 as [|x y l k HP _ IH]; intros HQ; constructor.
  - apply HQ; [apply list_elem_of_here|done].
  - apply IH. intros x' y' Hx'. by apply HQ, list_elem_of_further.
Qed.

Section vci.

Variables (s e : Z) (D : ee.ImageCollection).
Hypothesis HD : has_ndvi D.
Hypothesis complete : complete_years s e D.

Let C := clipped <$> D.

Lemma monthly_only_ndvi y m :
  s ≤ y ≤ e → 1 ≤ m ≤ 12 → only_ndvi (scaled (monthly_image C y m)).
Proof.
  intros Hy Hm. apply only_ndvi_scaled.
  destruct (complete y m Hy Hm) as (img & Himg & Htaken).
  apply (bandNames_reduce ee.mean_of); unfold C; rewrite filter_year_month.
  - apply only_ndvi_clipped.
  - intros Hnil%fmap_nil_inv. by eapply filter_nonempty.
Qed.

Lemma extremal_only_ndvi f y m :
  s ≤ y ≤ e → 1 ≤ m ≤ 12 →
  only_ndvi (scaled (extremal_image (ee.reduce f) C m)).
Proof.
  intros Hy Hm. apply only_ndvi_scaled.
  destruct (complete y m Hy Hm) as (img & Himg & Htaken).
  apply (bandNames_reduce f); unfold C; rewrite filter_month.
  - apply only_ndvi_clipped.
  - intros Hnil%fmap_nil_inv.
    eapply filter_nonempty; [done| |done]. by eapply taken_in_taken_in_month.
Qed.

Lemma monthly_filter y m :
  s ≤ y ≤ e → 1 ≤ m ≤ 12 →
  ee.filter (ee.Filter_eq "month" (ee.PNum m))
    (ee.filter (ee.Filter_eq "year" (ee.PNum y))
       ((λ ym, scaled (monthly_image C ym.1 ym.2)) <$> year_months s e))
  = [scaled (monthly_image C y m)].
Proof.
  intros Hy Hm. unfold ee.filter. rewrite filter_filter.
  apply (filter_unique _ (λ ym, scaled (monthly_image C ym.1 ym.2)) _ (y, m)).
  - apply year_months_NoDup.
  - by apply elem_of_year_months.
  - intros [y' m'] _. unfold ee.Filter_eq, scaled, monthly_image, ee.set.
    cbn [ee.props fst snd].
    rewrite lookup_insert_eq, lookup_insert_ne, lookup_insert_eq by done.
    rewrite andb_true_iff, !bool_decide_eq_true. split.
    + by intros [[= ->] [= ->]].
    + by intros [= -> ->].
Qed.

Lemma extremal_filter red m :
  1 ≤ m ≤ 12 →
  ee.filter (ee.Filter_eq "month" (ee.PNum m))
    ((λ m, scaled (extremal_image red C m)) <$> seqZ 1 12)
  = [scaled (extremal_image red C m)].
Proof.
  intros Hm. unfold ee.filter.
  apply (filter_unique _ (λ m, scaled (extremal_image red C m)) _ m).
  - apply NoDup_seqZ.
  - apply elem_of_seqZ. lia.
  - intros m' _. unfold ee.Filter_eq, scaled, extremal_image, ee.set.
    cbn [ee.props].
    rewrite lookup_insert_ne, lookup_insert_eq by done.
    rewrite bool_decide_eq_true. split; [by intros [= ->]|by intros ->].
Qed.

Lemma vci_month_pipeline y m :
  s ≤ y ≤ e → 1 ≤ m ≤ 12 →
  ∃ img,
    vci_month ((λ ym, scaled (monthly_image C ym.1 ym.2)) <$> year_months s e)
              ((λ m, scaled (extremal_image ee.max C m)) <$> seqZ 1 12)
              ((λ m, scaled (extremal_image ee.min C m)) <$> seqZ 1 12) y m
    = Some img
    ∧ vci_image_of D "NDVI" (y, m) img.
Proof.
  intros Hy Hm.
  destruct (vci_month_spec _ _ _ y m _ _ _
              (monthly_filter y m Hy Hm)
              (extremal_filter ee.max m Hm) (extremal_filter ee.min m Hm)
              (monthly_only_ndvi y m Hy Hm)
              (extremal_only_ndvi ee.max_of y m Hy Hm)
              (extremal_only_ndvi ee.min_of y m Hy Hm))
    as (img & Himg & Hprops & Hband & Hpix).
  exists img. split; [done|]. split_and!; [done|done|].
  intros p. cbn [fst snd].
  specialize (Hpix p). unfold C in Hpix.
  by rewrite monthly_image_value, min_image_value, max_image_value in Hpix.
Qed.

(** What [vci_calc] returns on the notebook's three collections. *)
Lemma vci_calc_images :
  ∃ out,
    vci_calc s e ((λ ym, scaled (monthly_image C ym.1 ym.2)) <$> year_months s e)
             ((λ m, scaled (extremal_image ee.max C m)) <$> seqZ 1 12)
             ((λ m, scaled (extremal_image ee.min C m)) <$> seqZ 1 12)
    = Some out
    ∧ Forall2 (vci_image_of D "NDVI") (year_months s e) out.
Proof.
  rewrite vci_calc_months.
  set (month := λ ym : Z * Z, vci_month _ _ _ ym.1 ym.2).
  assert (Hall : ∀ ym, ym ∈ year_months s e →
            ∃ img, month ym = Some img ∧ vci_image_of D "NDVI" ym img).
  { intros [y m] [Hy Hm]%elem_of_year_months.
    exact (vci_month_pipeline y m Hy Hm). }
  destruct (mapM month (year_months s e)) as [out|] eqn:Hout.
  2: { apply mapM_None_1, Exists_exists in Hout as (ym & Hin & Hnone).
       destruct (Hall ym Hin) as (img & Himg & _). congruence. }
  apply mapM_Some_1 in Hout.
  exists out. split; [done|].
  eapply Forall2_elem_impl; [exact Hout|].
  intros ym img Hin Hm. destruct (Hall ym Hin) as (img' & Himg' & Hof).
  by assert (img' = img) as <- by congruence.
Qed.

Lemma vci_images :
  ∃ col, vci s e D = Some col ∧ Forall2 (vci_image_of D "VCI") (year_months s e) col.
Proof.
  unfold vci.
  rewrite NDVI_Monthly_images, NDVI_mon_max_images, NDVI_mon_min_images by done.
  cbn [mbind option_bind]. fold C.
  destruct vci_calc_images as (out & -> & Hof). cbn [mbind option_bind].
  exists (renamed <$> out). split.
  - unfold ee.map. apply mapM_total. intros img Himg. apply select_vci.
    eapply (Forall2_Forall_r (vci_image_of D "NDVI") only_ndvi) in Hof.
    + rewrite Forall_forall in Hof. by apply Hof.
    + apply Forall_true. intros ym img' Hof'. apply Hof'.
  - apply Forall2_fmap_r. eapply Forall2_impl; [exact Hof|].
    intros ym img (Hprops & Hband & Hpix). split_and!; [done|done|].
    intros p. rewrite pixel_value_renamed by done. apply Hpix.
Qed.

End vci.

Lemma select_ndvi_inv img out :
  ee.select ["NDVI"] ["NDVI"] img = Some out → is_Some (ee.band img "NDVI").
Proof.
  unfold ee.select. simpl. destruct (ee.band img "NDVI"); [eauto|done].
Qed.

Lemma MODIS_NDVI_defined D loaded : MODIS_NDVI D = Some loaded → has_ndvi D.
Proof.
  unfold MODIS_NDVI.
  destruct (MODIS_NDVI_raw D) as [raw|] eqn:Hraw; [|done]. intros _.
  unfold MODIS_NDVI_raw, ee.map in Hraw.
  assert (Hsome : is_Some (mapM (ee.select ["NDVI"] ["NDVI"]) D)) by eauto.
  apply mapM_is_Some_1 in Hsome. unfold has_ndvi.
  eapply Forall_impl; [exact Hsome|]. intros img [out Hout].
  by eapply select_ndvi_inv.
Qed.

Lemma vci_defined_has_ndvi s e D col : vci s e D = Some col → has_ndvi D.
Proof.
  unfold vci, NDVI_Monthly.
  destruct (MODIS_NDVI D) as [loaded|] eqn:Hloaded; [|done]. intros _.
  by eapply MODIS_NDVI_defined.
Qed.

Lemma vci_month_defined s e D y m :
  s ≤ y ≤ e → 1 ≤ m ≤ 12 →
  is_Some
    (vci_month
       ((λ ym, scaled (monthly_image (clipped <$> D) ym.1 ym.2)) <$> year_months s e)
       ((λ m, scaled (extremal_image ee.max (clipped <$> D) m)) <$> seqZ 1 12)
       ((λ m, scaled (extremal_image ee.min (clipped <$> D) m)) <$> seqZ 1 12)
       y m) →
  ∃ img, img ∈ D ∧ taken_in y m img = true.
Proof.
  intros Hy Hm. unfold vci_month. rewrite monthly_filter by done.
  destruct (ee.select ["NDVI"] ["NDVI"] (ee.mean [_])) as [x|] eqn:Hsel.
  2: { by intros [? ?]. }
  intros _. apply select_ndvi_inv in Hsel as [r Hr].
  unfold ee.band, ee.mean, ee.reduce in Hr. cbn [ee.bands] in Hr.
  rewrite (assoc_fmap_name
             (λ n p, ee.mean_of (ee.values_at [scaled (monthly_image (clipped <$> D) y m)] n p)))
    in Hr.
  destruct (decide _) as [Hin|]; [|done].
  unfold scaled in Hin. cbn [ee.bands] in Hin.
  rewrite (fst_fmap_bands (λ b, ee.pointwise Qmult b.2 (λ _, Some (1 # 10000)%Q))) in Hin.
  unfold monthly_image in Hin. cbn [ee.set ee.bands] in Hin.
  rewrite filter_year_month in Hin.
  destruct (List.filter (taken_in y m) D) as [|img rest] eqn:Hfilter.
  { by apply elem_of_nil in Hin. }
  exists img.
  assert (HIn : In img (List.filter (taken_in y m) D)) by (rewrite Hfilter; by left).
  apply filter_In in HIn as [HIn Htaken]. by rewrite list_elem_of_In.
Qed.

(** The VCI collection exists exactly for an asset whose images all have
    the band ['NDVI'] and that covers every month of the range. *)
Lemma vci_defined s e D col :
  vci s e D = Some col → has_ndvi D ∧ complete_years s e D.
Proof.
  intros Hcol. pose proof (vci_defined_has_ndvi s e D col Hcol) as HD.
  split; [done|]. intros y m Hy Hm.
  apply (vci_month_defined s e D y m Hy Hm).
  unfold vci in Hcol.
  rewrite NDVI_Monthly_images, NDVI_mon_max_images, NDVI_mon_min_images in Hcol
    by done.
  cbn [mbind option_bind] in Hcol. rewrite vci_calc_months in Hcol.
  destruct (mapM _ (year_months s e)) as [out|] eqn:Hout; [|done].
  assert (Hsome : is_Some (mapM (λ ym, vci_month 
       ((λ ym, scaled (monthly_image (clipped <$> D) ym.1 ym.2)) <$> year_months s e)
       ((λ m, scaled (extremal_image ee.max (clipped <$> D) m)) <$> seqZ 1 12)
       ((λ m, scaled (extremal_image ee.min (clipped <$> D) m)) <$> seqZ 1 12)
       ym.1 ym.2) (year_months s e))) by eauto.
  apply mapM_is_Some_1 in Hsome. rewrite Forall_forall in Hsome.
  apply (Hsome (y, m)). by apply elem_of_year_months.
Qed.

(** ** Bounds *)

Lemma foldl_Qmin_le a l :
  (foldl Qmin a l <= a)%Q ∧ ∀ v, v ∈ l → (foldl Qmin a l <= v)%Q.
Proof.
  revert a. induction l as [|x l IH]; intros a; simpl.
  - split; [apply Qle_refl|]. intros v Hv. by apply elem_of_nil in Hv.
  - destruct (IH (Qmin a x)) as [Hhead Htail]. split.
    + eapply Qle_trans; [exact Hhead|apply Q.le_min_l].
    + intros v [->|Hv]%elem_of_cons; [|by apply Htail].
      eapply Qle_trans; [exact Hhead|apply Q.le_min_r].
Qed.

Lemma foldl_Qmax_ge a l :
  (a <= foldl Qmax a l)%Q ∧ ∀ v, v ∈ l → (v <= foldl Qmax a l)%Q.
Proof.
  revert a. induction l as [|x l IH]; intros a; simpl.
  - split; [apply Qle_refl|]. intros v Hv. by apply elem_of_nil in Hv.
  - destruct (IH (Qmax a x)) as [Hhead Htail]. split.
    + eapply Qle_trans; [apply Q.le_max_l|exact Hhead].
    + intros v [->|Hv]%elem_of_cons; [|by apply Htail].
      eapply Qle_trans; [apply Q.le_max_r|exact Hhead].
Qed.

Lemma min_of_le l lo v : ee.min_of l = Some lo → v ∈ l → (lo <= v)%Q.
Proof.
  destruct l as [|a l]; [done|]. intros [= <-] [->|Hv]%elem_of_cons.
  - apply (proj1 (foldl_Qmin_le a l)).
  - by apply (proj2 (foldl_Qmin_le a l)).
Qed.

Lemma max_of_ge l hi v : ee.max_of l = Some hi → v ∈ l → (v <= hi)%Q.
Proof.
  destruct l as [|a l]; [done|]. intros [= <-] [->|Hv]%elem_of_cons.
  - apply (proj1 (foldl_Qmax_ge a l)).
  - by apply (proj2 (foldl_Qmax_ge a l)).
Qed.

Lemma Qsum_bounds lo hi l :
  (∀ v, v ∈ l → (lo <= v <= hi)%Q) →
  (lo * inject_Z (Z.of_nat (length l)) <= ee.Qsum l
   ∧ ee.Qsum l <= hi * inject_Z (Z.of_nat (length l)))%Q.
Proof.
  induction l as [|x l IH]; intros Hl.
  - cbn [length]. change (inject_Z (Z.of_nat 0)) with 0%Q.
    change (ee.Qsum []) with 0%Q. lra.
  - destruct IH as [IHlo IHhi].
    { intros v Hv. by apply Hl, list_elem_of_further. }
    destruct (Hl x (list_elem_of_here _ _)) as [Hlo Hhi].
    cbn [length ee.Qsum foldr]. fold (ee.Qsum l).
    rewrite Nat2Z.inj_succ, <- Z.add_1_r, inject_Z_plus.
    change (inject_Z 1) with 1%Q. lra.
Qed.

(** A mean lies between any bounds of what it averages. *)
Lemma mean_of_bounds lo hi l μ :
  ee.mean_of l = Some μ → (∀ v, v ∈ l → (lo <= v <= hi)%Q) → (lo <= μ <= hi)%Q.
Proof.
  intros Hmean Hl. destruct (Qsum_bounds lo hi l Hl) as [Hlo Hhi].
  destruct l as [|x l]; [done|]. injection Hmean as <-.
  assert (Hpos : (0 < inject_Z (Z.of_nat (length (x :: l))))%Q).
  { rewrite <- (Zlt_Qlt 0). simpl. lia. }
  split.
  - by apply Qle_shift_div_l.
  - by apply Qle_shift_div_r.
Qed.

Lemma vci_value_bounds x mn mx :
  (mn <= x <= mx)%Q → (0 <= vci_value x mn mx <= 100)%Q.
Proof.
  intros [Hlo Hhi]. unfold vci_value.
  destruct (Qeq_dec (mx - mn) 0) as [Hzero|Hpos].
  - unfold Qdiv. rewrite Hzero. change (/ 0)%Q with 0%Q. lra.
  - assert (0 < mx - mn)%Q.
    { assert (Hle : (0 <= mx - mn)%Q) by lra.
      apply Qle_lteq in Hle as [Hlt|Heq]; [done|]. by apply Qeq_sym in Heq. }
    assert (0 <= (x - mn) / (mx - mn))%Q by (apply Qle_shift_div_l; lra).
    assert ((x - mn) / (mx - mn) <= 1)%Q by (apply Qle_shift_div_r; lra).
    lra.
Qed.

(** The images of a month of one year are among those of the calendar
    month. *)
Lemma ndvi_values_month D y m p v :
  v ∈ ndvi_values D (taken_in y m) p → v ∈ ndvi_values D (taken_in_month m) p.
Proof.
  unfold ndvi_values. rewrite !list_elem_of_omap.
  intros (img & Hin & Hv). exists img. split; [|done].
  apply list_elem_of_In, filter_In in Hin as [Hin Htaken].
  apply list_elem_of_In, filter_In. split; [done|].
  by eapply taken_in_taken_in_month.
Qed.

Lemma vci_pixel_bounds D y m p v :
  vci_pixel (monthly_mean_ndvi D y m p) (calendar_min_ndvi D m p)
            (calendar_max_ndvi D m p) = Some v →
  (0 <= v <= 100)%Q.
Proof.
  unfold monthly_mean_ndvi, calendar_min_ndvi, calendar_max_ndvi.
  destruct (ee.mean_of _) as [μ|] eqn:Hmean; [|done].
  destruct (ee.min_of _) as [lo|] eqn:Hmin; [|done].
  destruct (ee.max_of _) as [hi|] eqn:Hmax; [|done].
  intros [= <-]. apply vci_value_bounds.
  assert (lo <= μ <= hi)%Q as [Hlo Hhi].
  { eapply mean_of_bounds; [exact Hmean|]. intros v Hv%ndvi_values_month.
    split; [by eapply min_of_le|by eapply max_of_ge]. }
  unfold scale. lra.
Qed.
(** ** The VCI formula *)

Lemma complete_years_check s e D :
  forallb (λ ym, existsb (taken_in ym.1 ym.2) D) (year_months s e) = true →
  complete_years s e D.
Proof.
  intros Hcheck y m Hy Hm. rewrite forallb_forall in Hcheck.
  specialize (Hcheck (y, m)). rewrite existsb_exists in Hcheck.
  destruct Hcheck as (img & Hin & Htaken).
  - apply list_elem_of_In. by apply elem_of_year_months.
  - exists img. by rewrite list_elem_of_In.
Qed.

Lemma has_ndvi_sample : has_ndvi sample_asset.
Proof. unfold has_ndvi. apply (bool_decide_unpack _). vm_compute. exact I. Qed.

Lemma complete_sample : complete_years 2001 2002 sample_asset.
Proof. apply complete_years_check. vm_compute. reflexivity. Qed.

Lemma Forall2_year_months {P : Z * Z → ee.Image → Prop} s e col y m :
  Forall2 P (year_months s e) col → s ≤ y ≤ e → 1 ≤ m ≤ 12 →
  ∃ img, col !! position s y m = Some img ∧ P (y, m) img.
Proof.
  intros Hall Hy Hm.
  by apply (Forall2_lookup_l _ _ _ _ _ Hall), year_months_lookup.
Qed.

Lemma same_pixel_sym a b : same_pixel a b → same_pixel b a.
Proof. destruct 1; constructor. by apply Qeq_sym. Qed.

Lemma same_pixel_trans a b c : same_pixel a b → same_pixel b c → same_pixel a c.
Proof.
  destruct 1; inversion 1; subst; constructor. by eapply Qeq_trans.
Qed.

(** On the sample asset the VCI of January 2001 is 2100/59, about 35.6:
    the mean 0.41 between the minimum 0.20, of January 2000, and the maximum
    0.79.  Normalised over the years 2001..2002 it would be 0. *)
Example sample_january_2001 :
  same_pixel
    (vci_pixel (monthly_mean_ndvi sample_asset 2001 1 inside)
               (calendar_min_ndvi sample_asset 1 inside)
               (calendar_max_ndvi sample_asset 1 inside))
    (Some (2100 # 59)%Q)
  ∧ same_pixel
      (vci_pixel (monthly_mean_ndvi sample_asset 2001 1 inside)
                 (range_min_ndvi 2001 2002 sample_asset 1 inside)
                 (range_max_ndvi 2001 2002 sample_asset 1 inside))
      (Some 0%Q).
Proof. split; vm_compute; constructor; reflexivity. Qed.

(** C1, as stated, fails: the extrema [vci_calc] normalises with are not
    those of the years [start_year..end_year].  With the range 2001..2002
    and an image of January 2000 below every January of the range, the VCI
    of January 2001 differs from the index normalised over the range,
    whether the extrema are taken over the images of the range or over its
    monthly means. *)
Lemma vci_not_normalised_over_range :
  ¬ vci_normalises 2001 2002 sample_asset
      (range_min_ndvi 2001 2002 sample_asset)
      (range_max_ndvi 2001 2002 sample_asset)
  ∧ ¬ vci_normalises 2001 2002 sample_asset
        (means_min_ndvi 2001 2002 sample_asset)
        (means_max_ndvi 2001 2002 sample_asset).
Proof.
  destruct (vci_images 2001 2002 sample_asset has_ndvi_sample complete_sample)
    as (col & Hcol & Hall).
  destruct (Forall2_year_months 2001 2002 col 2001 1 Hall)
    as (img & Himg & _ & _ & Hpix); [lia..|].
  specialize (Hpix inside).
  split.
  - intros Hclaim.
    destruct (Hclaim col Hcol 2001 1) as (img' & Himg' & _ & _ & Hpix'); [lia..|].
    specialize (Hpix' inside).
    assert (img' = img) as -> by congruence.
    pose proof (same_pixel_trans _ _ _ (same_pixel_sym _ _ Hpix) Hpix') as Hboth.
    vm_compute in Hboth. inversion Hboth as [? ? Heq|]. discriminate Heq.
  - intros Hclaim.
    destruct (Hclaim col Hcol 2001 1) as (img' & Himg' & _ & _ & Hpix'); [lia..|].
    specialize (Hpix' inside).
    assert (img' = img) as -> by congruence.
    pose proof (same_pixel_trans _ _ _ (same_pixel_sym _ _ Hpix) Hpix') as Hboth.
    vm_compute in Hboth. inversion Hboth as [? ? Heq|]. discriminate Heq.
Qed.

(** C1, amended: for every year [y] of the range and month [m], the image
    [vci_calc] produces for [(y, m)] is, pixel by pixel,
    [(x - min_m) / (max_m - min_m) * 100], where [x] is the monthly mean
    NDVI of month [m] of year [y] and [min_m], [max_m] are the minimum and
    maximum NDVI over all images of calendar month [m] in the whole asset,
    of any year.  The image is read in [vci], where its band is renamed
    ['VCI'].  The collection exists as soon as every image of the asset has
    the band ['NDVI'] and every month of the range has an image. *)
Theorem vci_formula (s e : Z) (D : ee.ImageCollection) :
  (has_ndvi D → complete_years s e D → is_Some (vci s e D))
  ∧ vci_normalises s e D (calendar_min_ndvi D) (calendar_max_ndvi D).
Proof.
  split.
  - intros HD Hcomplete.
    destruct (vci_images s e D HD Hcomplete) as (col & Hcol & _). eauto.
  - intros col Hcol y m Hy Hm.
    destruct (vci_defined s e D col Hcol) as [HD Hcomplete].
    destruct (vci_images s e D HD Hcomplete) as (col' & Hcol' & Hall).
    assert (col' = col) as -> by congruence.
    destruct (Forall2_year_months s e col y m Hall Hy Hm)
      as (img & Himg & Hprops & _ & Hpix).
    exists img. split_and!; [done| | |done].
    + by rewrite Hprops, lookup_insert_eq.
    + by rewrite Hprops, lookup_insert_ne, lookup_insert_eq.
Qed.

Lemma vci_formula_witness : is_Some (vci 2001 2002 sample_asset).
Proof.
  apply (proj1 (vci_formula 2001 2002 sample_asset));
    [apply has_ndvi_sample|apply complete_sample].
Defined.

(** ** The range of the index *)

Lemma assoc_elem name bs r : ee.assoc name bs = Some r → (name, r) ∈ bs.
Proof.
  induction bs as [|[n r'] bs IH]; [done|]. simpl.
  destruct (decide (n = name)) as [->|].
  - intros [= ->]. apply list_elem_of_here.
  - intros Hr. by apply list_elem_of_further, IH.
Qed.

Lemma all_values_pixel P img b p v :
  all_values P img → ee.pixel_value img b p = Some v → P v.
Proof.
  unfold all_values, ee.pixel_value, ee.band. rewrite Forall_forall.
  intros Hall. destruct (ee.assoc b (ee.bands img)) as [r|] eqn:Hr; [|done].
  simpl. intros Hv. by apply (Hall (b, r) (assoc_elem _ _ _ Hr) p v).
Qed.

Lemma all_values_single P img n :
  ee.bandNames img = [n] →
  (∀ p v, ee.pixel_value img n p = Some v → P v) → all_values P img.
Proof.
  unfold all_values, ee.bandNames, ee.pixel_value, ee.band.
  destruct (ee.bands img) as [|[n' r] [|b bs]]; intros [=] Hpix. subst n'.
  apply Forall_singleton. intros p v Hv. apply (Hpix p v).
  simpl. by rewrite decide_True.
Qed.

Lemma all_values_toBands P col :
  Forall (all_values P) col → all_values P (ee.toBands col).
Proof.
  unfold all_values at 2, ee.toBands. cbn [ee.bands].
  rewrite !Forall_forall. intros Hcol b Hb.
  apply list_elem_of_join in Hb as (l & Hb & Hl).
  apply elem_of_lookup_imap in Hl as (i & img & -> & Himg).
  apply list_elem_of_fmap in Hb as (b0 & -> & Hb0).
  apply list_elem_of_lookup_2 in Himg. specialize (Hcol img Himg).
  unfold all_values in Hcol. rewrite Forall_forall in Hcol.
  by apply (Hcol b0).
Qed.

Lemma all_values_select P olds news img img' :
  all_values P img → ee.select olds news img = Some img' → all_values P img'.
Proof.
  unfold ee.select. intros Hall. destruct (decide _); [|done].
  destruct (mapM _ _) as [bs|] eqn:Hbs; [|done]. intros [= <-].
  unfold all_values. cbn [ee.bands].
  apply mapM_Some_1 in Hbs.
  eapply (Forall2_Forall_r _ _ _ _ Hbs), Forall_true.
  intros [o n] b Hb p v Hv. cbn [fst snd] in Hb.
  destruct (ee.band img o) as [r|] eqn:Hr; [|done]. injection Hb as <-.
  unfold all_values in Hall. rewrite Forall_forall in Hall.
  by apply (Hall (o, r) (assoc_elem _ _ _ Hr) p v).
Qed.

Lemma vci_image_bounds D ym img :
  vci_image_of D "VCI" ym img → all_values (λ v, 0 <= v <= 100)%Q img.
Proof.
  intros (_ & Hband & Hpix). apply (all_values_single _ _ "VCI"); [done|].
  intros p v Hv. specialize (Hpix p). rewrite Hv in Hpix.
  inversion Hpix as [? v' Heq Hv' Hvci|]. symmetry in Hvci.
  apply vci_pixel_bounds in Hvci. by rewrite Heq.
Qed.

(** C3: every VCI value the pipeline computes lies in 0..100, the
    visualisation range of [videoArgs]: in every image of the VCI collection
    (one for every month of the range), in every band of the flattened and
    renamed [vci_img], and in every frame of the animation.  The collection
    exists as soon as every image of the asset has the band ['NDVI'] and
    every month of the range has an image. *)
Theorem vci_between_0_and_100 (s e : Z) (D : ee.ImageCollection) :
  (has_ndvi D → complete_years s e D → is_Some (vci s e D))
  ∧ ∀ col, vci s e D = Some col →
      (∀ y m, s ≤ y ≤ e → 1 ≤ m ≤ 12 →
         ∃ img, col !! position s y m = Some img)
      ∧ (∀ img, img ∈ col →
           ∀ b p v, ee.pixel_value img b p = Some v →
                    (vis_min videoArgs <= v <= vis_max videoArgs)%Q)
      ∧ (∀ new_names img, vci_img s e D new_names = Some img →
           ∀ b p v, ee.pixel_value img b p = Some v →
                    (vis_min videoArgs <= v <= vis_max videoArgs)%Q)
      ∧ (∀ y frames, video_vci s e D y = Some frames →
           ∀ img, img ∈ frames →
             ∀ b p v, ee.pixel_value img b p = Some v →
                      (vis_min videoArgs <= v <= vis_max videoArgs)%Q).
Proof.
  change (vis_min videoArgs) with 0%Q. change (vis_max videoArgs) with 100%Q.
  split.
  { intros HD Hcomplete.
    destruct (vci_images s e D HD Hcomplete) as (col & Hcol & _). eauto. }
  intros col Hcol.
  destruct (vci_defined s e D col Hcol) as [HD Hcomplete].
  destruct (vci_images s e D HD Hcomplete) as (col' & Hcol' & Hall).
  assert (col' = col) as -> by congruence.
  assert (Hbounds : Forall (all_values (λ v, 0 <= v <= 100)%Q) col).
  { eapply (Forall2_Forall_r _ _ _ _ Hall), Forall_true.
    intros ym img. apply vci_image_bounds. }
  rewrite Forall_forall in Hbounds.
  split_and!.
  - intros y m Hy Hm.
    destruct (Forall2_year_months s e col y m Hall Hy Hm) as (img & Himg & _).
    by exists img.
  - intros img Himg b p v.
    apply (all_values_pixel (λ v, 0 <= v <= 100)%Q img b p v). by apply Hbounds.
  - intros new_names img. unfold vci_img, original_names, vci_toBands.
    rewrite Hcol. cbn [fmap option_fmap option_map mbind option_bind].
    intros Hsel b p v.
    apply (all_values_pixel (λ v, 0 <= v <= 100)%Q img b p v).
    eapply all_values_select; [|exact Hsel].
    by apply all_values_toBands, Forall_forall.
  - intros y frames. unfold video_vci. rewrite Hcol.
    cbn [mbind option_bind]. intros [= <-] img Himg b p v.
    apply (all_values_pixel (λ v, 0 <= v <= 100)%Q img b p v).
    apply Hbounds. apply list_elem_of_In, filter_In in Himg as [Himg _].
    by apply list_elem_of_In.
Qed.

Lemma vci_between_0_and_100_witness : is_Some (vci 2001 2002 sample_asset).
Proof.
  apply (proj1 (vci_between_0_and_100 2001 2002 sample_asset));
    [apply has_ndvi_sample|apply complete_sample].
Defined.

(** ** The monthly collection *)

Lemma filter_taken_in col y m :
  ee.filter (ee.Filter_calendarRange m m ee.month_field)
    (ee.filter (ee.Filter_calendarRange y y ee.year_field) col)
  = List.filter (taken_in y m) col.
Proof.
  unfold ee.filter. rewrite filter_filter.
  apply List.filter_ext. intros img. apply calendar_year_month.
Qed.

Lemma values_at_missing col b p :
  (∀ i, i ∈ col → b ∉ ee.bandNames i) → ee.values_at col b p = [].
Proof.
  unfold ee.values_at. induction col as [|i col IH]; intros Hcol; [done|].
  csimpl. unfold ee.pixel_value at 1, ee.band.
  rewrite assoc_None by apply Hcol, list_elem_of_here. simpl.
  apply IH. intros j Hj. by apply Hcol, list_elem_of_further.
Qed.

(** A reducer on a collection with uniform bands, pixel by pixel. *)
Lemma pixel_value_reduce_uniform f col b p :
  f [] = None → same_bands col →
  ee.pixel_value (ee.reduce f col) b p = f (ee.values_at col b p).
Proof.
  intros Hf Hsame. destruct col as [|i col]; [done|].
  unfold ee.pixel_value, ee.band, ee.reduce. cbn [ee.bands].
  rewrite (assoc_fmap_name (λ n p, f (ee.values_at (i :: col) n p))).
  destruct (decide (b ∈ (ee.bands i).*1)) as [Hin|Hnot]; [done|].
  cbn [mbind option_bind]. rewrite values_at_missing; [by rewrite Hf|].
  intros j Hj. by rewrite (Hsame j i Hj (list_elem_of_here _ _)).
Qed.

Lemma same_bands_filter f col : same_bands col → same_bands (List.filter f col).
Proof.
  intros Hsame i j Hi%list_elem_of_In%filter_In Hj%list_elem_of_In%filter_In.
  apply Hsame; apply list_elem_of_In; [apply Hi|apply Hj].
Qed.

(** C6: for [start_year <= end_year] and a collection covering complete
    calendar years, [col2monthly] returns exactly 12 images per year of the
    range, year-major with the months ascending, and the image of [(y, m)]
    carries ['month'] = m and ['year'] = y and is the mean of the input
    images taken in month [m] of year [y]; when the input images all have
    the same bands it has those bands and is their mean band by band and
    pixel by pixel. *)
Theorem col2monthly_spec (s e : Z) (col : ee.ImageCollection) :
  s ≤ e → complete_years s e col →
  length (col2monthly s e col) = Z.to_nat (12 * (e - s + 1))
  ∧ ∀ y m, s ≤ y ≤ e → 1 ≤ m ≤ 12 →
      ∃ img,
        col2monthly s e col !! position s y m = Some img
        ∧ ee.props img !! "month" = Some (ee.PNum m)
        ∧ ee.props img !! "year" = Some (ee.PNum y)
        ∧ img = ee.set "year" (ee.PNum y)
                  (ee.set "month" (ee.PNum m)
                     (ee.mean (List.filter (taken_in y m) col)))
        ∧ (same_bands col →
           (∀ i, i ∈ col → ee.bandNames img = ee.bandNames i)
           ∧ ∀ b p, ee.pixel_value img b p
                    = ee.mean_of
                        (ee.values_at (List.filter (taken_in y m) col) b p)).
Proof.
  intros Hse Hcomplete. rewrite col2monthly_images. split.
  - by rewrite length_fmap, year_months_length.
  - intros y m Hy Hm. exists (monthly_image col y m). split_and!.
    + by rewrite list_lookup_fmap, year_months_lookup.
    + reflexivity.
    + reflexivity.
    + unfold monthly_image. by rewrite filter_taken_in.
    + intros Hsame. split.
      * intros i Hi. unfold monthly_image. rewrite filter_taken_in.
        destruct (Hcomplete y m Hy Hm) as (j & Hj & Htaken).
        destruct (List.filter (taken_in y m) col) as [|k rest] eqn:Hfilter.
        { by destruct (filter_nonempty (taken_in y m) col j Hj Htaken). }
        unfold ee.bandNames, ee.mean, ee.reduce, ee.set. cbn [ee.bands].
        rewrite (fst_fmap_bands
                   (λ b p, ee.mean_of (ee.values_at (k :: rest) b.1 p))).
        apply Hsame; [|done]. apply list_elem_of_In.
        apply (proj1 (filter_In (taken_in y m) k col)).
        rewrite Hfilter. by left.
      * intros b p. unfold monthly_image. rewrite filter_taken_in.
        apply (pixel_value_reduce_uniform ee.mean_of); [done|].
        by apply same_bands_filter.
Qed.

Lemma same_bands_sample : same_bands sample_asset.
Proof.
  assert (Hall : Forall (λ i, ee.bandNames i = ["NDVI"]) sample_asset).
  { apply (bool_decide_unpack _). vm_compute. exact I. }
  rewrite Forall_forall in Hall.
  intros i j Hi Hj. by rewrite (Hall i Hi), (Hall j Hj).
Qed.

Lemma col2monthly_spec_witness :
  length (col2monthly 2001 2002 sample_asset) = 24%nat
  ∧ ∃ img,
      col2monthly 2001 2002 sample_asset !! position 2001 2002 1 = Some img
      ∧ ee.pixel_value img "NDVI" inside = Some (7900 # 1)%Q.
Proof.
  destruct (col2monthly_spec 2001 2002 sample_asset) as [Hlen Hall].
  - lia.
  - apply complete_sample.
  - split; [exact Hlen|].
    destruct (Hall 2002 1) as (img & Himg & _ & _ & _ & Hsame); [lia..|].
    exists img. split; [exact Himg|].
    destruct (Hsame same_bands_sample) as [_ Hpix]. rewrite Hpix.
    vm_compute. reflexivity.
Defined.

(** ** Flattening and renaming *)

Lemma assoc_lookup bs i n r :
  NoDup bs.*1 → bs !! i = Some (n, r) → ee.assoc n bs = Some r.
Proof.
  revert i. induction bs as [|[n' r'] bs IH]; intros i Hnd Hi; [done|].
  csimpl in Hnd. apply NoDup_cons in Hnd as [Hnot Hnd].
  destruct i as [|i]; simpl in *.
  - injection Hi as -> ->. by rewrite decide_True.
  - rewrite decide_False; [by eapply IH|].
    intros ->. apply Hnot. apply list_elem_of_fmap. exists (n, r).
    split; [done|]. by eapply list_elem_of_lookup_2.
Qed.

(** Selecting all bands of an image under new names relabels them in
    place. *)
Lemma select_relabel img news :
  NoDup (ee.bandNames img) → length news = length (ee.bands img) →
  ee.select (ee.bandNames img) news img
  = Some (ee.mkImage (zip news (ee.bands img).*2) (ee.props img)).
Proof.
  intros Hnd Hlen. unfold ee.select, ee.bandNames in *.
  rewrite decide_True by by rewrite length_fmap.
  rewrite (proj2 (mapM_Some _ _ (zip news (ee.bands img).*2))); [done|].
  apply Forall2_same_length_lookup_2.
  - rewrite !length_zip, !length_fmap. lia.
  - intros i [o n] [n' r] [Ho Hn]%lookup_zip_Some [Hn' Hr]%lookup_zip_Some.
    cbn [fst snd]. assert (n' = n) as -> by congruence.
    rewrite list_lookup_fmap in Ho. rewrite list_lookup_fmap in Hr.
    destruct (ee.bands img !! i) as [[o' r']|] eqn:Hb; [|done].
    simpl in Ho, Hr. injection Ho as ->. injection Hr as ->.
    unfold ee.band. by rewrite (assoc_lookup _ i o r Hnd Hb).
Qed.

Lemma join_imap_singletons {A B} (h : nat → A → list B) (h' : nat → A → B) l :
  (∀ i x, x ∈ l → h i x = [h' i x]) → mjoin (imap h l) = imap h' l.
Proof.
  revert h h'. induction l as [|x l IH]; intros h h' Hh; [done|].
  rewrite !imap_cons. csimpl.
  rewrite (Hh 0%nat x) by apply list_elem_of_here. simpl. f_equal.
  apply IH. intros i y Hy. by apply Hh, list_elem_of_further.
Qed.

Lemma toBands_single col n :
  Forall (λ img, ee.bandNames img = [n]) col →
  ee.bands (ee.toBands col)
  = imap (λ i img, (str_int (Z.of_nat i) +:+ "_" +:+ n,
                    default (λ _, None) (ee.band img n))) col.
Proof.
  rewrite Forall_forall. intros Hcol. unfold ee.toBands. cbn [ee.bands].
  apply join_imap_singletons. intros i img Himg.
  specialize (Hcol img Himg). unfold ee.bandNames, ee.band in *.
  destruct (ee.bands img) as [|[n' r] [|b bs]]; try done.
  injection Hcol as ->. simpl. by rewrite decide_True.
Qed.

Lemma NoDup_imap_inj {A B} (f : nat → A → B) l :
  (∀ i j x y, f i x = f j y → i = j) → NoDup (imap f l).
Proof.
  intros Hinj. apply NoDup_alt. intros i j b.
  rewrite !list_lookup_imap.
  destruct (l !! i) as [x|], (l !! j) as [y|]; try done.
  simpl. intros [= Hi] [= Hj]. apply (Hinj i j x y). congruence.
Qed.

Lemma toBands_names_NoDup col n :
  Forall (λ img, ee.bandNames img = [n]) col →
  NoDup (ee.bandNames (ee.toBands col)).
Proof.
  intros Hcol. unfold ee.bandNames. rewrite (toBands_single col n Hcol).
  rewrite fmap_imap. apply NoDup_imap_inj. intros i j x y Heq.
  unfold compose in Heq. cbn [fst] in Heq.
  apply append_inj_r, str_int_inj in Heq. lia.
Qed.

Lemma single_band_value img n p :
  ee.bandNames img = [n] →
  default (λ _, None) (ee.band img n) p = ee.pixel_value img n p.
Proof.
  unfold ee.bandNames, ee.pixel_value, ee.band.
  destruct (ee.bands img) as [|[n' r] [|b bs]]; intros [=]. subst n'.
  simpl. by rewrite decide_True.
Qed.

(** C8: [create_band_names] returns exactly [12 * (end_year - start_year + 1)]
    pairwise distinct labels ['mm-yyyy_VCI'], year-major with the months
    ascending; [vci.toBands()] has as many bands, in the same order, and
    [select(original_names, new_names)] relabels them one to one: the band
    labelled for month [m] of year [y] is the VCI image of that month,
    whenever the VCI collection exists. *)
Theorem create_band_names_relabels (g : gmap string pyval) (s e : Z) :
  s ≤ e →
  g !! "start_year" = Some (PyInt s) → g !! "end_year" = Some (PyInt e) →
  ∃ new_names,
    create_band_names g = (inr new_names, g)
    ∧ length new_names = Z.to_nat (12 * (e - s + 1))
    ∧ NoDup new_names
    ∧ (∀ y m, s ≤ y ≤ e → 1 ≤ m ≤ 12 →
         new_names !! position s y m = Some (band_label m y))
    ∧ ∀ D col, vci s e D = Some col →
        ∃ original img,
          original_names s e D = Some original
          ∧ length original = length new_names
          ∧ NoDup original
          ∧ vci_img s e D new_names = Some img
          ∧ ee.bandNames img = new_names
          ∧ ∀ y m, s ≤ y ≤ e → 1 ≤ m ≤ 12 →
              ∃ frame,
                col !! position s y m = Some frame
                ∧ original !! position s y m
                  = Some (str_int (Z.of_nat (position s y m)) +:+ "_VCI")
                ∧ ∀ p, ee.pixel_value img (band_label m y) p
                       = ee.pixel_value frame "VCI" p.
Proof.
  intros Hse Hs He.
  exists ((λ ym, band_label ym.2 ym.1) <$> year_months s e).
  rewrite create_band_names_outcome, Hs, He. cbn [band_names_outcome].
  split_and!.
  - done.
  - by rewrite length_fmap, year_months_length.
  - apply band_names_NoDup.
  - intros y m Hy Hm. by apply band_names_lookup with (e := e).
  - intros D col Hcol.
    set (new_names := (λ ym, band_label ym.2 ym.1) <$> year_months s e).
    destruct (vci_defined s e D col Hcol) as [HD Hcomplete].
    destruct (vci_images s e D HD Hcomplete) as (col' & Hcol' & Hall).
    assert (col' = col) as -> by congruence.
    assert (Hsingle : Forall (λ img, ee.bandNames img = ["VCI"]) col).
    { eapply (Forall2_Forall_r _ _ _ _ Hall), Forall_true.
      intros ym img Hof. apply Hof. }
    assert (Hlen : length col = length new_names).
    { unfold new_names. rewrite length_fmap. symmetry.
      by eapply Forall2_length. }
    pose proof (toBands_single col "VCI" Hsingle) as Hbands.
    pose proof (toBands_names_NoDup col "VCI" Hsingle) as Hnd.
    assert (Hrelabel :
      vci_img s e D new_names
      = Some (ee.mkImage (zip new_names (ee.bands (ee.toBands col)).*2)
                         (ee.props (ee.toBands col)))).
    { unfold vci_img, original_names, vci_toBands. rewrite Hcol.
      cbn [fmap option_fmap option_map mbind option_bind].
      apply select_relabel; [done|]. by rewrite Hbands, length_imap. }
    exists (ee.bandNames (ee.toBands col)),
      (ee.mkImage (zip new_names (ee.bands (ee.toBands col)).*2)
                  (ee.props (ee.toBands col))).
    split_and!; [| | |exact Hrelabel| |].
    + unfold original_names, vci_toBands. by rewrite Hcol.
    + unfold ee.bandNames. by rewrite length_fmap, Hbands, length_imap.
    + done.
    + unfold ee.bandNames. cbn [ee.bands]. apply fst_zip.
      rewrite length_fmap, Hbands, length_imap. lia.
    + intros y m Hy Hm.
      destruct (Forall2_year_months s e col y m Hall Hy Hm)
        as (frame & Hframe & _ & Hband & _).
      exists frame. split_and!; [done|..].
      * unfold ee.bandNames. rewrite Hbands, fmap_imap, list_lookup_imap, Hframe.
        reflexivity.
      * intros p. unfold ee.pixel_value at 1, ee.band. cbn [ee.bands].
        rewrite (assoc_lookup _ (position s y m) (band_label m y)
                   (default (λ _, None) (ee.band frame "VCI"))).
        -- simpl. by apply single_band_value.
        -- rewrite fst_zip; [apply band_names_NoDup|].
           rewrite length_fmap, Hbands, length_imap. fold new_names. lia.
        -- apply lookup_zip_Some. split.
           ++ by apply band_names_lookup with (e := e).
           ++ rewrite Hbands, fmap_imap, list_lookup_imap, Hframe. reflexivity.
Qed.

Lemma create_band_names_relabels_witness :
  ∃ new_names,
    create_band_names globals_2001_2022 = (inr new_names, globals_2001_2022)
    ∧ length new_names = 264%nat ∧ NoDup new_names.
Proof.
  destruct (create_band_names_relabels globals_2001_2022 2001 2022)
    as (new_names & Hrun & Hlen & Hnd & _).
  - lia.
  - vm_compute. reflexivity.
  - vm_compute. reflexivity.
  - exists new_names. split_and!; [exact Hrun|exact Hlen|exact Hnd].
Defined.

(** ** Where the extrema come from *)

Lemma pixel_value_monthly_image C y m b p :
  ee.pixel_value (monthly_image C y m) b p
  = ee.pixel_value
      (ee.reduce ee.mean_of
         (ee.filter (ee.Filter_calendarRange m m ee.month_field)
            (ee.filter (ee.Filter_calendarRange y y ee.year_field) C))) b p.
Proof. reflexivity. Qed.

Lemma monthly_image_any_band D y m b p :
  has_ndvi D →
  ee.pixel_value (scaled (monthly_image (clipped <$> D) y m)) b p
  = if decide (b = "NDVI") then monthly_mean_ndvi D y m p else None.
Proof.
  intros HD. destruct (decide (b = "NDVI")) as [->|Hne].
  - by apply monthly_image_value.
  - rewrite pixel_value_scaled, pixel_value_monthly_image, filter_year_month.
    rewrite pixel_value_reduce_uniform; [|done|].
    + rewrite values_at_missing; [done|].
      intros i (j & -> & _)%list_elem_of_fmap.
      by intros ->%list_elem_of_singleton.
    + intros i j (i' & -> & _)%list_elem_of_fmap (j' & -> & _)%list_elem_of_fmap.
      done.
Qed.

Lemma has_ndvi_spread : has_ndvi asset_spread.
Proof. unfold has_ndvi. apply (bool_decide_unpack _). vm_compute. exact I. Qed.

Lemma has_ndvi_level : has_ndvi asset_level.
Proof. unfold has_ndvi. apply (bool_decide_unpack _). vm_compute. exact I. Qed.

Lemma same_monthly_spread_level :
  same_images (NDVI_Monthly 2001 2001 asset_spread)
              (NDVI_Monthly 2001 2001 asset_level).
Proof.
  do 2 eexists. split_and!.
  - apply NDVI_Monthly_images, has_ndvi_spread.
  - apply NDVI_Monthly_images, has_ndvi_level.
  - apply Forall2_fmap, Forall_Forall2_diag, Forall_forall.
    intros [y m] _. cbn [fst snd]. split_and!.
    + unfold scaled, monthly_image, ee.set. cbn [ee.props]. reflexivity.
    + unfold ee.bandNames, scaled. cbn [ee.bands].
      rewrite !(fst_fmap_bands (λ b, ee.pointwise Qmult b.2 (λ _, Some (1 # 10000)%Q))).
      unfold monthly_image. cbn [ee.set ee.bands].
      rewrite !filter_year_month. unfold asset_spread, asset_level.
      cbn [List.filter].
      change (taken_in y m (flat_image 2001 1 2000))
        with (taken_in y m (flat_image 2001 1 4000)).
      change (taken_in y m (flat_image 2001 1 6000))
        with (taken_in y m (flat_image 2001 1 4000)).
      by destruct (taken_in y m (flat_image 2001 1 4000)).
    + intros b p.
      rewrite !monthly_image_any_band by (apply has_ndvi_spread || apply has_ndvi_level).
      destruct (decide (b = "NDVI")); [|constructor].
      unfold monthly_mean_ndvi, ndvi_values, asset_spread, asset_level.
      cbn [List.filter].
      change (taken_in y m (flat_image 2001 1 2000))
        with (taken_in y m (flat_image 2001 1 4000)).
      change (taken_in y m (flat_image 2001 1 6000))
        with (taken_in y m (flat_image 2001 1 4000)).
      destruct (taken_in y m (flat_image 2001 1 4000)), (roi p);
        vm_compute; constructor; reflexivity.
Qed.

(** The two assets have the January mean 0.4 and the January minima 0.2
    and 0.4. *)
Example january_means_and_minima :
  same_pixel (monthly_mean_ndvi asset_spread 2001 1 inside) (Some (4 # 10)%Q)
  ∧ same_pixel (monthly_mean_ndvi asset_level 2001 1 inside) (Some (4 # 10)%Q)
  ∧ same_pixel (calendar_min_ndvi asset_spread 1 inside) (Some (2 # 10)%Q)
  ∧ same_pixel (calendar_min_ndvi asset_level 1 inside) (Some (4 # 10)%Q).
Proof. split_and!; vm_compute; constructor; reflexivity. Qed.

(** C2, as stated, fails: the extrema are not computed from the monthly
    collection.  Two assets give the same monthly collection and different
    minima of January. *)
Lemma extrema_not_from_monthly : ¬ extrema_from_monthly 2001 2001.
Proof.
  intros Hclaim.
  destruct (Hclaim asset_spread asset_level has_ndvi_spread has_ndvi_level
              same_monthly_spread_level) as (l1 & l2 & H1 & H2 & Hall).
  rewrite NDVI_mon_min_images in H1 by apply has_ndvi_spread.
  rewrite NDVI_mon_min_images in H2 by apply has_ndvi_level.
  apply (inj Some) in H1, H2. subst l1 l2.
  destruct (Forall2_lookup_lr _ _ _ 0%nat
              (scaled (extremal_image ee.min (clipped <$> asset_spread) 1))
              (scaled (extremal_image ee.min (clipped <$> asset_level) 1))
              Hall eq_refl eq_refl) as (_ & _ & Hpix).
  specialize (Hpix "NDVI" inside).
  rewrite !min_image_value in Hpix by (apply has_ndvi_spread || apply has_ndvi_level).
  vm_compute in Hpix. inversion Hpix as [? ? Heq|]. discriminate Heq.
Qed.

(** C2, amended: the stages run in the order load, reshape to monthly
    cadence, per-calendar-month extrema, normalised index, rename and
    flatten, animate; the reshaping and the extrema both read the loaded,
    clipped collection [MODIS_NDVI] (here [loaded]), and the index reads
    their two results.  The extremum of calendar month [m] is, pixel by pixel, 0.0001 times the
    minimum (maximum) over the images of the asset taken in calendar month
    [m], one value per image, not per monthly mean. *)
Theorem extrema_from_loaded_collection (s e : Z)
    (D loaded : ee.ImageCollection) :
  MODIS_NDVI D = Some loaded →
  ∃ monthly mn mx,
    NDVI_Monthly s e D = Some monthly
    ∧ ee.map apply_scale_factor (col2monthly s e loaded) = Some monthly
    ∧ NDVI_mon_min D = Some mn
    ∧ ee.map apply_scale_factor (min_monthly loaded) = Some mn
    ∧ NDVI_mon_max D = Some mx
    ∧ ee.map apply_scale_factor (max_monthly loaded) = Some mx
    ∧ vci s e D = (out ← vci_calc s e monthly mx mn;
                   ee.map (ee.select ["NDVI"] ["VCI"]) out)
    ∧ (∀ names, vci_img s e D names
                = (col ← vci s e D;
                   ee.select (ee.bandNames (ee.toBands col)) names (ee.toBands col)))
    ∧ (∀ y, video_vci s e D y
            = (col ← vci s e D;
               Some (ee.filter (ee.Filter_eq "year" (ee.PNum y)) col)))
    ∧ length mn = 12%nat ∧ length mx = 12%nat
    ∧ ∀ m, 1 ≤ m ≤ 12 →
        ∃ imn imx,
          mn !! Z.to_nat (m - 1) = Some imn
          ∧ mx !! Z.to_nat (m - 1) = Some imx
          ∧ ee.props imn !! "month" = Some (ee.PNum m)
          ∧ ee.props imx !! "month" = Some (ee.PNum m)
          ∧ ee.props imn !! "ID" = Some (ee.PStr (two_digits m))
          ∧ ee.props imx !! "ID" = Some (ee.PStr (two_digits m))
          ∧ ∀ p, ee.pixel_value imn "NDVI" p = calendar_min_ndvi D m p
                 ∧ ee.pixel_value imx "NDVI" p = calendar_max_ndvi D m p.
Proof.
  intros Hloaded.
  pose proof (MODIS_NDVI_defined D loaded Hloaded) as HD.
  pose proof (NDVI_Monthly_images s e D HD) as Hmonthly.
  pose proof (NDVI_mon_min_images D HD) as Hmin.
  pose proof (NDVI_mon_max_images D HD) as Hmax.
  eexists _, _, _. split_and!.
  - exact Hmonthly.
  - rewrite <- Hmonthly. unfold NDVI_Monthly. by rewrite Hloaded.
  - exact Hmin.
  - rewrite <- Hmin. unfold NDVI_mon_min. by rewrite Hloaded.
  - exact Hmax.
  - rewrite <- Hmax. unfold NDVI_mon_max. by rewrite Hloaded.
  - unfold vci. by rewrite Hmonthly, Hmax, Hmin.
  - intros names. unfold vci_img, original_names, vci_toBands.
    by destruct (vci s e D).
  - done.
  - by rewrite length_fmap, length_seqZ.
  - by rewrite length_fmap, length_seqZ.
  - intros m Hm.
    exists (scaled (extremal_image ee.min (clipped <$> D) m)),
           (scaled (extremal_image ee.max (clipped <$> D) m)).
    assert (Hm' : seqZ 1 12 !! Z.to_nat (m - 1) = Some m).
    { rewrite lookup_seqZ_lt by lia. f_equal. lia. }
    assert (Hid : ee.format_02d m = two_digits m).
    { unfold ee.format_02d. by destruct (month_padding m Hm) as [_ ->]. }
    split_and!.
    + by rewrite list_lookup_fmap, Hm'.
    + by rewrite list_lookup_fmap, Hm'.
    + reflexivity.
    + reflexivity.
    + unfold scaled, extremal_image, ee.set. cbn [ee.props].
      by rewrite lookup_insert_eq, Hid.
    + unfold scaled, extremal_image, ee.set. cbn [ee.props].
      by rewrite lookup_insert_eq, Hid.
    + intros p. split; [by apply min_image_value|by apply max_image_value].
Qed.

Lemma extrema_from_loaded_collection_witness :
  ∃ mn mx, NDVI_mon_min sample_asset = Some mn
           ∧ NDVI_mon_max sample_asset = Some mx
           ∧ length mn = 12%nat ∧ length mx = 12%nat.
Proof.
  destruct (extrema_from_loaded_collection 2001 2002 sample_asset
              (clipped <$> sample_asset)
              (MODIS_NDVI_clipped sample_asset has_ndvi_sample))
    as (monthly & mn & mx & _ & _ & Hmn & _ & Hmx & _ & _ & _ & _
        & Hlmn & Hlmx & _).
  exists mn, mx. split_and!; [exact Hmn|exact Hmx|exact Hlmn|exact Hlmx].
Defined.

(** ** When the pipeline is defined *)

Lemma vci_collection s e D col :
  vci s e D = Some col → Forall2 (vci_image_of D "VCI") (year_months s e) col.
Proof.
  intros Hcol. destruct (vci_defined s e D col Hcol) as [HD Hcomplete].
  destruct (vci_images s e D HD Hcomplete) as (col' & Hcol' & Hall).
  by assert (col' = col) as <- by congruence.
Qed.

Lemma has_ndvi_dec D : Decision (has_ndvi D).
Proof. unfold has_ndvi. apply Forall_dec. intros img. apply _. Defined.

Lemma NDVI_Monthly_defined s e D monthly :
  NDVI_Monthly s e D = Some monthly → has_ndvi D.
Proof.
  unfold NDVI_Monthly.
  destruct (MODIS_NDVI D) as [loaded|] eqn:Hloaded; [|done]. intros _.
  by eapply MODIS_NDVI_defined.
Qed.

(** X1: the VCI collection exists exactly when every image of the asset has
    the band ['NDVI'] and every month of every year of the range has an
    image: the years must be complete.  A missing band already fails the
    monthly and the extremal collections; a missing month is an error only
    from [vci_calc] on.  The flattened image and the animation frames exist
    exactly when the VCI collection does. *)
Theorem vci_exists_iff (s e : Z) (D : ee.ImageCollection) :
  (is_Some (vci s e D) ↔ has_ndvi D ∧ complete_years s e D)
  ∧ (is_Some (NDVI_Monthly s e D) ↔ has_ndvi D)
  ∧ (is_Some (NDVI_mon_min D) ↔ has_ndvi D)
  ∧ (is_Some (NDVI_mon_max D) ↔ has_ndvi D)
  ∧ (is_Some (vci_toBands s e D) ↔ is_Some (vci s e D))
  ∧ (∀ y, is_Some (video_vci s e D y) ↔ is_Some (vci s e D)).
Proof.
  split_and!.
  - split.
    + intros [col Hcol]. by eapply vci_defined.
    + intros [HD Hcomplete].
      destruct (vci_images s e D HD Hcomplete) as (col & Hcol & _). eauto.
  - split.
    + intros [monthly Hm]. by eapply NDVI_Monthly_defined.
    + intros HD. rewrite NDVI_Monthly_images by done. eauto.
  - split.
    + unfold NDVI_mon_min. intros [mn Hmn].
      destruct (MODIS_NDVI D) as [loaded|] eqn:Hloaded; [|done].
      by eapply MODIS_NDVI_defined.
    + intros HD. rewrite NDVI_mon_min_images by done. eauto.
  - split.
    + unfold NDVI_mon_max. intros [mx Hmx].
      destruct (MODIS_NDVI D) as [loaded|] eqn:Hloaded; [|done].
      by eapply MODIS_NDVI_defined.
    + intros HD. rewrite NDVI_mon_max_images by done. eauto.
  - unfold vci_toBands. by rewrite fmap_is_Some.
  - intros y. unfold video_vci. destruct (vci s e D); simpl; split; eauto.
    all: by intros [? ?].
Qed.

(** An asset with images of January only leaves the year 2001 incomplete. *)
Example vci_incomplete_year : vci 2001 2001 asset_spread = None.
Proof.
  destruct (vci 2001 2001 asset_spread) as [col|] eqn:Hcol; [|done].
  destruct (vci_defined _ _ _ _ Hcol) as [_ Hcomplete].
  destruct (Hcomplete 2001 2) as (img & Himg & Htaken); [lia..|].
  exfalso. unfold asset_spread in Himg.
  repeat (apply elem_of_cons in Himg as [->|Himg]; [by vm_compute in Htaken|]).
  by apply elem_of_nil in Himg.
Qed.

(** ** The loaded collection *)

(** X2: cell 13.  Loading fails exactly when some image of the asset lacks
    the band ['NDVI'].  Otherwise [MODIS_NDVI] has one image for every image
    of the asset, in the same order, with the same properties (the time
    stamp among them) and the single band ['NDVI'], whose value is the
    asset's inside the region of interest and masked outside. *)
Theorem MODIS_NDVI_spec (D : ee.ImageCollection) :
  (MODIS_NDVI D = None ↔ ∃ img, img ∈ D ∧ ee.band img "NDVI" = None)
  ∧ ∀ loaded, MODIS_NDVI D = Some loaded →
      Forall2 (λ src img,
         ee.props img = ee.props src
         ∧ ee.bandNames img = ["NDVI"]
         ∧ ∀ p, ee.pixel_value img "NDVI" p
                = if roi p then ee.pixel_value src "NDVI" p else None)
        D loaded.
Proof.
  split.
  - split.
    + intros Hnone. destruct (has_ndvi_dec D) as [HD|HD].
      { rewrite MODIS_NDVI_clipped in Hnone by done. done. }
      apply not_Forall_Exists in HD; [|intros img; apply _].
      apply Exists_exists in HD as (img & Himg & Hband).
      exists img. split; [done|]. unfold compose in Hband.
      by apply eq_None_not_Some.
    + intros (img & Himg & Hband).
      destruct (MODIS_NDVI D) as [loaded|] eqn:Hloaded; [|done].
      apply MODIS_NDVI_defined in Hloaded. unfold has_ndvi in Hloaded.
      rewrite Forall_forall in Hloaded.
      destruct (Hloaded img Himg) as [r Hr]. congruence.
  - intros loaded Hloaded.
    pose proof (MODIS_NDVI_defined D loaded Hloaded) as HD.
    rewrite MODIS_NDVI_clipped in Hloaded by done. injection Hloaded as <-.
    apply Forall2_fmap_r, Forall_Forall2_diag.
    unfold has_ndvi in HD. eapply Forall_impl; [exact HD|].
    intros img Himg. split_and!; [done|done|].
    intros p. by apply pixel_value_clipped.
Qed.

(** ** Months without images *)

Lemma filter_all_false {A} (f : A → bool) (l : list A) :
  (∀ x, x ∈ l → f x = false) → List.filter f l = [].
Proof.
  induction l as [|x l IH]; intros Hf; simpl; [done|].
  rewrite Hf by apply list_elem_of_here.
  apply IH. intros y Hy. by apply Hf, list_elem_of_further.
Qed.

Lemma filter_all_true {A} (f : A → bool) (l : list A) :
  (∀ x, x ∈ l → f x = true) → List.filter f l = l.
Proof.
  induction l as [|x l IH]; intros Hf; simpl; [done|].
  rewrite Hf by apply list_elem_of_here. f_equal.
  apply IH. intros y Hy. by apply Hf, list_elem_of_further.
Qed.

Lemma select_no_band olds news img o :
  o ∈ olds → ee.band img o = None → ee.select olds news img = None.
Proof.
  intros Ho Hband. unfold ee.select. destruct (decide _) as [Hlen|]; [|done].
  rewrite (proj2 (mapM_None _ _)); [done|].
  apply list_elem_of_lookup in Ho as [i Hi].
  destruct (lookup_lt_is_Some_2 news i) as [n Hn].
  { rewrite <- Hlen. by eapply lookup_lt_Some. }
  apply Exists_exists. exists (o, n). split.
  - apply list_elem_of_lookup. exists i. by apply lookup_zip_Some.
  - cbn [fst]. by rewrite Hband.
Qed.

Lemma select_bandless olds news img o :
  o ∈ olds → ee.bandNames img = [] → ee.select olds news img = None.
Proof.
  intros Ho Hnone. apply (select_no_band _ _ _ o Ho).
  unfold ee.band, ee.bandNames in *. by destruct (ee.bands img).
Qed.

Lemma bandless_no_data img : ee.bands img = [] → no_data img.
Proof.
  intros Hb. split; [unfold ee.bandNames; by rewrite Hb|].
  apply (select_bandless _ _ _ "NDVI"); [apply list_elem_of_here|].
  unfold ee.bandNames. by rewrite Hb.
Qed.

(** X3: [col2monthly] on data that may be incomplete.  For
    [start_year <= end_year] it returns 12 images per year whatever the
    input holds, each with exactly the properties ['month'] and ['year'];
    for a month without any input image the image has no band and no
    value, and [select('NDVI')] on it is an error. *)
Theorem col2monthly_incomplete (s e : Z) (col : ee.ImageCollection) :
  s ≤ e →
  length (col2monthly s e col) = Z.to_nat (12 * (e - s + 1))
  ∧ ∀ y m, s ≤ y ≤ e → 1 ≤ m ≤ 12 →
      ∃ img,
        col2monthly s e col !! position s y m = Some img
        ∧ ee.props img = <["year":=ee.PNum y]> (<["month":=ee.PNum m]> ∅)
        ∧ ((∀ i, i ∈ col → taken_in y m i = false) →
           no_data img ∧ ∀ b p, ee.pixel_value img b p = None).
Proof.
  intros Hse. rewrite col2monthly_images. split.
  - by rewrite length_fmap, year_months_length.
  - intros y m Hy Hm. exists (monthly_image col y m). split_and!.
    + by rewrite list_lookup_fmap, year_months_lookup.
    + reflexivity.
    + intros Hnone.
      assert (Hbands : ee.bands (monthly_image col y m) = []).
      { unfold monthly_image. rewrite filter_taken_in.
        by rewrite (filter_all_false _ _ Hnone). }
      split; [by apply bandless_no_data|].
      intros b p. unfold ee.pixel_value, ee.band. by rewrite Hbands.
Qed.

Lemma col2monthly_incomplete_witness :
  length (col2monthly 2001 2001 asset_spread) = 12%nat
  ∧ ∃ img, col2monthly 2001 2001 asset_spread !! position 2001 2001 2 = Some img
           ∧ no_data img.
Proof.
  destruct (col2monthly_incomplete 2001 2001 asset_spread) as [Hlen Hall].
  - lia.
  - split; [exact Hlen|].
    destruct (Hall 2001 2) as (img & Himg & _ & Hnone); [lia..|].
    exists img. split; [exact Himg|]. apply Hnone.
    intros i Hi. unfold asset_spread in Hi.
    repeat (apply elem_of_cons in Hi as [->|Hi]; [vm_compute; reflexivity|]).
    by apply elem_of_nil in Hi.
Defined.

(** ** The monthly collection carries no dates *)

Lemma calendarRange_undated a b field img :
  ee.props img !! "system:time_start" = None →
  ee.Filter_calendarRange a b field img = false.
Proof. unfold ee.Filter_calendarRange. by intros ->. Qed.

Lemma extremal_image_undated red col m :
  Forall (λ img, ee.props img !! "system:time_start" = None) col →
  extremal_image red col m
  = ee.set "ID" (ee.PStr (ee.format_02d m)) (ee.set "month" (ee.PNum m) (red [])).
Proof.
  rewrite Forall_forall. intros Hcol. unfold extremal_image, ee.filter.
  rewrite filter_all_false; [done|].
  intros img Himg. by apply calendarRange_undated, Hcol.
Qed.

Lemma monthly_image_undated col y m :
  Forall (λ img, ee.props img !! "system:time_start" = None) col →
  monthly_image col y m
  = ee.set "year" (ee.PNum y) (ee.set "month" (ee.PNum m) (ee.mean [])).
Proof.
  rewrite Forall_forall. intros Hcol. unfold monthly_image, ee.filter.
  rewrite (filter_all_false _ col); [done|].
  intros img Himg. by apply calendarRange_undated, Hcol.
Qed.

Lemma reduce_bandless f col :
  Forall (λ img, ee.bandNames img = []) col → ee.bandNames (ee.reduce f col) = [].
Proof.
  intros Hcol. destruct Hcol as [|img col Himg _]; [done|].
  unfold ee.bandNames, ee.reduce in *. cbn [ee.bands].
  apply fmap_nil_inv in Himg. by rewrite Himg.
Qed.

Lemma bandNames_scaled img : ee.bandNames (scaled img) = ee.bandNames img.
Proof. unfold ee.bandNames, scaled. cbn [ee.bands]. apply fst_fmap_bands. Qed.

Lemma scale_factor_map col : ee.map apply_scale_factor col = Some (scaled <$> col).
Proof. apply mapM_total. intros img _. apply apply_scale_factor_scaled. Qed.

(** X4: the images of [NDVI_Monthly] carry ['month'] and ['year'] but no
    time stamp, so no [calendarRange] filter selects any of them:
    [min_monthly], [max_monthly] and [col2monthly] applied to the monthly
    collection return images without bands, and [vci_calc] fed with extrema
    computed from the monthly collection is an error.  The extrema have to
    be taken from the dated collection. *)
Theorem monthly_collection_undated (s e : Z) (D monthly : ee.ImageCollection) :
  NDVI_Monthly s e D = Some monthly →
  Forall (λ img, ee.props img !! "system:time_start" = None) monthly
  ∧ Forall no_data (min_monthly monthly)
  ∧ Forall no_data (max_monthly monthly)
  ∧ (∀ s' e', Forall no_data (col2monthly s' e' monthly))
  ∧ (s ≤ e → ∀ mn mx,
       ee.map apply_scale_factor (min_monthly monthly) = Some mn →
       ee.map apply_scale_factor (max_monthly monthly) = Some mx →
       vci_calc s e monthly mx mn = None).
Proof.
  intros Hmonthly.
  pose proof (NDVI_Monthly_defined s e D monthly Hmonthly) as HD.
  rewrite NDVI_Monthly_images in Hmonthly by done. injection Hmonthly as <-.
  set (monthly := _ <$> year_months s e).
  assert (Hundated : Forall (λ img, ee.props img !! "system:time_start" = None) monthly).
  { apply Forall_fmap, Forall_true. intros [y m]. done. }
  assert (Hmin : Forall no_data (min_monthly monthly)).
  { rewrite min_monthly_images. apply Forall_fmap, Forall_true. intros m.
    unfold compose. rewrite extremal_image_undated by done.
    by apply bandless_no_data. }
  split_and!.
  - done.
  - done.
  - rewrite max_monthly_images. apply Forall_fmap, Forall_true. intros m.
    unfold compose. rewrite extremal_image_undated by done.
    by apply bandless_no_data.
  - intros s' e'. rewrite col2monthly_images. apply Forall_fmap, Forall_true.
    intros [y m]. unfold compose. cbn [fst snd].
    rewrite monthly_image_undated by done. by apply bandless_no_data.
  - intros Hse mn mx Hmn Hmx.
    rewrite scale_factor_map in Hmn. apply (inj Some) in Hmn. subst mn.
    rewrite vci_calc_months. apply mapM_None, Exists_exists.
    exists (s, 1). split; [apply elem_of_year_months; lia|].
    cbn [fst snd]. unfold vci_month.
    destruct (ee.select ["NDVI"] ["NDVI"]
                (ee.mean (ee.filter _ (ee.filter _ monthly)))) as [x|]; [|done].
    cbn [mbind option_bind].
    rewrite (select_bandless _ _ (ee.mean (ee.filter _ (scaled <$> _))) "NDVI");
      [done|apply list_elem_of_here|].
    apply reduce_bandless, Forall_filter, Forall_fmap.
    eapply Forall_impl; [exact Hmin|].
    intros img [Hbands _]. unfold compose. by rewrite bandNames_scaled.
Qed.

Lemma monthly_collection_undated_witness :
  ∃ monthly,
    NDVI_Monthly 2001 2002 sample_asset = Some monthly
    ∧ Forall no_data (min_monthly monthly)
    ∧ length (min_monthly monthly) = 12%nat.
Proof.
  destruct (NDVI_Monthly 2001 2002 sample_asset) as [monthly|] eqn:Hmonthly.
  - exists monthly. split; [reflexivity|].
    destruct (monthly_collection_undated 2001 2002 sample_asset monthly Hmonthly)
      as (_ & Hmin & _).
    split; [exact Hmin|reflexivity].
  - exfalso. rewrite NDVI_Monthly_images in Hmonthly by apply has_ndvi_sample.
    discriminate Hmonthly.
Defined.

(** ** The extrema bracket the monthly mean *)

Lemma mean_of_is_Some l : is_Some (ee.mean_of l) ↔ l ≠ [].
Proof. destruct l; split; try done; eauto. by intros [? ?]. Qed.

Lemma min_of_is_Some l : is_Some (ee.min_of l) ↔ l ≠ [].
Proof. destruct l; split; try done; eauto. by intros [? ?]. Qed.

Lemma max_of_is_Some l : is_Some (ee.max_of l) ↔ l ≠ [].
Proof. destruct l; split; try done; eauto. by intros [? ?]. Qed.

(** Where a monthly mean is defined, so are the extrema of its calendar
    month, and it lies between them. *)
Lemma mean_between_extrema D y m p x :
  monthly_mean_ndvi D y m p = Some x →
  ∃ a b, calendar_min_ndvi D m p = Some a ∧ calendar_max_ndvi D m p = Some b
         ∧ (a <= x <= b)%Q.
Proof.
  unfold monthly_mean_ndvi, calendar_min_ndvi, calendar_max_ndvi.
  destruct (ee.mean_of _) as [μ|] eqn:Hmean; [|done]. intros [= <-].
  assert (Hne : ndvi_values D (taken_in_month m) p ≠ []).
  { destruct (ndvi_values D (taken_in y m) p) as [|v vs] eqn:Hvs; [done|].
    assert (Hv : v ∈ ndvi_values D (taken_in y m) p).
    { rewrite Hvs. apply list_elem_of_here. }
    apply ndvi_values_month in Hv. intros Hnil. rewrite Hnil in Hv.
    by apply elem_of_nil in Hv. }
  destruct (proj2 (min_of_is_Some _) Hne) as [lo Hlo].
  destruct (proj2 (max_of_is_Some _) Hne) as [hi Hhi].
  rewrite Hlo, Hhi. exists (scale lo), (scale hi).
  assert (lo <= μ <= hi)%Q as [H1 H2].
  { eapply mean_of_bounds; [exact Hmean|]. intros v Hv%ndvi_values_month.
    split; [by eapply min_of_le|by eapply max_of_ge]. }
  split; [done|]. split; [done|]. unfold scale. lra.
Qed.

(** X5: the three collections [vci_calc] reads.  For every month of the
    range, wherever the monthly mean NDVI has a value, the minimum and the
    maximum of its calendar month have one too, and
    [minimum <= mean <= maximum]. *)
Theorem monthly_mean_between_extrema (s e : Z) (D : ee.ImageCollection) :
  has_ndvi D →
  ∃ monthly mn mx,
    NDVI_Monthly s e D = Some monthly
    ∧ NDVI_mon_min D = Some mn
    ∧ NDVI_mon_max D = Some mx
    ∧ ∀ y m, s ≤ y ≤ e → 1 ≤ m ≤ 12 →
        ∃ ix imn imx,
          monthly !! position s y m = Some ix
          ∧ mn !! Z.to_nat (m - 1) = Some imn
          ∧ mx !! Z.to_nat (m - 1) = Some imx
          ∧ ∀ p x, ee.pixel_value ix "NDVI" p = Some x →
              ∃ a b, ee.pixel_value imn "NDVI" p = Some a
                     ∧ ee.pixel_value imx "NDVI" p = Some b
                     ∧ (a <= x <= b)%Q.
Proof.
  intros HD. eexists _, _, _. split_and!.
  - by apply NDVI_Monthly_images.
  - by apply NDVI_mon_min_images.
  - by apply NDVI_mon_max_images.
  - intros y m Hy Hm.
    assert (Hm' : seqZ 1 12 !! Z.to_nat (m - 1) = Some m).
    { rewrite lookup_seqZ_lt by lia. f_equal. lia. }
    eexists _, _, _. split_and!.
    + by rewrite list_lookup_fmap, year_months_lookup.
    + by rewrite list_lookup_fmap, Hm'.
    + by rewrite list_lookup_fmap, Hm'.
    + intros p x. cbn [fst snd].
      rewrite monthly_image_value, min_image_value, max_image_value by done.
      apply mean_between_extrema.
Qed.

Lemma monthly_mean_between_extrema_witness :
  ∃ monthly mn mx,
    NDVI_Monthly 2001 2002 sample_asset = Some monthly
    ∧ NDVI_mon_min sample_asset = Some mn
    ∧ NDVI_mon_max sample_asset = Some mx
    ∧ ∃ ix imn imx,
        monthly !! position 2001 2002 1 = Some ix
        ∧ mn !! 0%nat = Some imn
        ∧ mx !! 0%nat = Some imx.
Proof.
  destruct (monthly_mean_between_extrema 2001 2002 sample_asset has_ndvi_sample)
    as (monthly & mn & mx & Hmonthly & Hmn & Hmx & Hall).
  exists monthly, mn, mx.
  split; [exact Hmonthly|]. split; [exact Hmn|]. split; [exact Hmx|].
  destruct (Hall 2002 1) as (ix & imn & imx & Hix & Himn & Himx & _); [lia..|].
  exists ix, imn, imx. split; [exact Hix|]. split; [exact Himn|exact Himx].
Defined.

(** ** The filters of [vci_calc] *)

Lemma pixel_value_mean_single img b p :
  ee.pixel_value (ee.mean [img]) b p
  = (λ v, (v + 0) / 1)%Q <$> ee.pixel_value img b p.
Proof.
  unfold ee.pixel_value at 1, ee.band, ee.mean, ee.reduce. cbn [ee.bands].
  rewrite (assoc_fmap_name (λ n p, ee.mean_of (ee.values_at [img] n p))).
  destruct (decide (b ∈ (ee.bands img).*1)) as [Hin|Hnot].
  - cbn [mbind option_bind]. unfold ee.values_at. csimpl.
    by destruct (ee.pixel_value img b p).
  - unfold ee.pixel_value, ee.band. by rewrite assoc_None.
Qed.

Lemma mean_single_same img b p :
  same_pixel (ee.pixel_value (ee.mean [img]) b p) (ee.pixel_value img b p).
Proof.
  rewrite pixel_value_mean_single.
  destruct (ee.pixel_value img b p) as [v|]; constructor. field.
Qed.

(** X6: what the comments of [vci_calc] say of its filters.  For every month
    of the range each of the three filters returns a collection with a
    single image (the image of that month of the monthly collection, and the
    image of that calendar month of each extremal collection), and the mean
    of a single image has the values of that image in every band at every
    pixel. *)
Theorem vci_calc_filters_single (s e : Z) (D : ee.ImageCollection) :
  has_ndvi D →
  ∃ monthly mn mx,
    NDVI_Monthly s e D = Some monthly
    ∧ NDVI_mon_min D = Some mn
    ∧ NDVI_mon_max D = Some mx
    ∧ ∀ y m, s ≤ y ≤ e → 1 ≤ m ≤ 12 →
        ∃ ix imn imx,
          ee.filter (ee.Filter_eq "month" (ee.PNum m))
            (ee.filter (ee.Filter_eq "year" (ee.PNum y)) monthly) = [ix]
          ∧ ee.filter (ee.Filter_eq "month" (ee.PNum m)) mn = [imn]
          ∧ ee.filter (ee.Filter_eq "month" (ee.PNum m)) mx = [imx]
          ∧ monthly !! position s y m = Some ix
          ∧ mn !! Z.to_nat (m - 1) = Some imn
          ∧ mx !! Z.to_nat (m - 1) = Some imx
          ∧ ∀ img, img ∈ [ix; imn; imx] →
              ∀ b p, same_pixel (ee.pixel_value (ee.mean [img]) b p)
                                (ee.pixel_value img b p).
Proof.
  intros HD. eexists _, _, _. split_and!.
  - by apply NDVI_Monthly_images.
  - by apply NDVI_mon_min_images.
  - by apply NDVI_mon_max_images.
  - intros y m Hy Hm.
    assert (Hm' : seqZ 1 12 !! Z.to_nat (m - 1) = Some m).
    { rewrite lookup_seqZ_lt by lia. f_equal. lia. }
    eexists _, _, _. split_and!.
    + by apply monthly_filter.
    + by apply extremal_filter.
    + by apply extremal_filter.
    + by rewrite list_lookup_fmap, year_months_lookup.
    + by rewrite list_lookup_fmap, Hm'.
    + by rewrite list_lookup_fmap, Hm'.
    + intros img _ b p. apply mean_single_same.
Qed.

Lemma vci_calc_filters_single_witness :
  ∃ monthly, NDVI_Monthly 2001 2002 sample_asset = Some monthly
             ∧ ∃ ix, ee.filter (ee.Filter_eq "month" (ee.PNum 3))
                       (ee.filter (ee.Filter_eq "year" (ee.PNum 2002)) monthly)
                     = [ix].
Proof.
  destruct (vci_calc_filters_single 2001 2002 sample_asset has_ndvi_sample)
    as (monthly & mn & mx & Hmonthly & _ & _ & Hall).
  exists monthly. split; [exact Hmonthly|].
  destruct (Hall 2002 3) as (ix & imn & imx & Hix & _); [lia..|].
  exists ix. exact Hix.
Defined.

(** ** Where the index is defined *)

Lemma ndvi_values_nonempty D sel p :
  ndvi_values D sel p ≠ []
  ↔ roi p = true
    ∧ ∃ src, src ∈ D ∧ sel src = true ∧ is_Some (ee.pixel_value src "NDVI" p).
Proof.
  unfold ndvi_values. split.
  - intros Hne.
    destruct (omap _ _) as [|v vs] eqn:Hvs; [done|].
    assert (Hv : v ∈ v :: vs) by apply list_elem_of_here.
    rewrite <- Hvs in Hv. apply list_elem_of_omap in Hv as (src & Hsrc & Hval).
    apply list_elem_of_In, filter_In in Hsrc as [Hsrc Hsel].
    destruct (roi p); [|done]. split; [done|].
    exists src. rewrite list_elem_of_In. eauto.
  - intros (Hroi & src & Hsrc & Hsel & [v Hv]) Hnil.
    assert (Hin : v ∈ omap (λ img, if roi p then ee.pixel_value img "NDVI" p else None)
                    (List.filter sel D)).
    { apply list_elem_of_omap. exists src. split.
      - apply list_elem_of_In, filter_In. by rewrite <- list_elem_of_In.
      - by rewrite Hroi. }
    rewrite Hnil in Hin. by apply elem_of_nil in Hin.
Qed.

Lemma monthly_mean_is_Some D y m p :
  is_Some (monthly_mean_ndvi D y m p)
  ↔ roi p = true
    ∧ ∃ src, src ∈ D ∧ taken_in y m src = true
             ∧ is_Some (ee.pixel_value src "NDVI" p).
Proof.
  unfold monthly_mean_ndvi. rewrite fmap_is_Some, mean_of_is_Some.
  apply ndvi_values_nonempty.
Qed.

Lemma vci_pixel_is_Some D y m p :
  is_Some (vci_pixel (monthly_mean_ndvi D y m p) (calendar_min_ndvi D m p)
                     (calendar_max_ndvi D m p))
  ↔ is_Some (monthly_mean_ndvi D y m p).
Proof.
  split.
  - destruct (monthly_mean_ndvi D y m p); [eauto|]. by intros [? ?].
  - intros [x Hx]. destruct (mean_between_extrema D y m p x Hx) as (a & b & -> & -> & _).
    rewrite Hx. simpl. eauto.
Qed.

Lemma same_pixel_is_Some a b : same_pixel a b → is_Some a ↔ is_Some b.
Proof. destruct 1; split; eauto; by intros [? ?]. Qed.

Lemma roi_spec p :
  roi p = true ↔ (-17 # 2 <= p.1 <= 2)%Q ∧ (49 <= p.2 <= 61)%Q.
Proof.
  unfold roi, ee.rectangle. rewrite !andb_true_iff, !Qle_bool_iff. tauto.
Qed.

(** X7: where the index has a value.  The VCI image of month [m] of year
    [y] is unmasked at a pixel exactly when the pixel lies in the region of
    interest (longitude -8.5..2, latitude 49..61) and at least one image of
    the asset taken in that month has an unmasked NDVI there. *)
Theorem vci_defined_where_observed (s e : Z) (D : ee.ImageCollection) :
  has_ndvi D → complete_years s e D →
  ∃ col,
    vci s e D = Some col
    ∧ ∀ y m, s ≤ y ≤ e → 1 ≤ m ≤ 12 →
        ∃ img,
          col !! position s y m = Some img
          ∧ ∀ p, is_Some (ee.pixel_value img "VCI" p)
                 ↔ ((-17 # 2 <= p.1 <= 2)%Q ∧ (49 <= p.2 <= 61)%Q)
                   ∧ ∃ src, src ∈ D ∧ taken_in y m src = true
                            ∧ is_Some (ee.pixel_value src "NDVI" p).
Proof.
  intros HD Hcomplete.
  destruct (vci_images s e D HD Hcomplete) as (col & Hcol & Hall).
  exists col. split; [done|]. intros y m Hy Hm.
  destruct (Forall2_year_months s e col y m Hall Hy Hm)
    as (img & Himg & _ & _ & Hpix).
  exists img. split; [done|]. intros p.
  rewrite (same_pixel_is_Some _ _ (Hpix p)). cbn [fst snd].
  rewrite vci_pixel_is_Some, <- roi_spec. apply monthly_mean_is_Some.
Qed.

Lemma vci_defined_where_observed_witness :
  ∃ col img,
    vci 2001 2002 sample_asset = Some col
    ∧ col !! position 2001 2001 1 = Some img
    ∧ is_Some (ee.pixel_value img "VCI" inside).
Proof.
  destruct (vci_defined_where_observed 2001 2002 sample_asset
              has_ndvi_sample complete_sample) as (col & Hcol & Hall).
  destruct (Hall 2001 1) as (img & Himg & Hpix); [lia..|].
  exists col, img. split; [exact Hcol|]. split; [exact Himg|].
  apply Hpix. split.
  - cbn [inside fst snd]. lra.
  - exists (flat_image 2001 1 (inject_Z (4000 + 100 * 1))). split_and!.
    + apply list_elem_of_further, list_elem_of_here.
    + reflexivity.
    + by eexists.
Defined.

(** ** Nothing outside the region of interest *)

Lemma all_bands_pixel P img b p :
  all_bands (λ r, P (r p)) img → P None → P (ee.pixel_value img b p).
Proof.
  unfold all_bands, ee.pixel_value, ee.band. rewrite Forall_forall.
  intros Hall HNone. destruct (ee.assoc b (ee.bands img)) as [r|] eqn:Hr; [|done].
  simpl. by apply (Hall (b, r) (assoc_elem _ _ _ Hr)).
Qed.

Lemma all_bands_single P img n :
  ee.bandNames img = [n] →
  P (default (λ _, None) (ee.band img n)) → all_bands P img.
Proof.
  unfold all_bands, ee.bandNames, ee.band.
  destruct (ee.bands img) as [|[n' r] [|b bs]]; intros [=]. subst n'.
  simpl. rewrite decide_True by done. intros HP. by apply Forall_singleton.
Qed.

Lemma all_bands_toBands P col :
  Forall (all_bands P) col → all_bands P (ee.toBands col).
Proof.
  unfold all_bands at 2, ee.toBands. cbn [ee.bands].
  rewrite !Forall_forall. intros Hcol b Hb.
  apply list_elem_of_join in Hb as (l & Hb & Hl).
  apply elem_of_lookup_imap in Hl as (i & img & -> & Himg).
  apply list_elem_of_fmap in Hb as (b0 & -> & Hb0).
  apply list_elem_of_lookup_2 in Himg. specialize (Hcol img Himg).
  unfold all_bands in Hcol. rewrite Forall_forall in Hcol.
  by apply (Hcol b0).
Qed.

Lemma all_bands_select P olds news img img' :
  all_bands P img → ee.select olds news img = Some img' → all_bands P img'.
Proof.
  unfold ee.select. intros Hall. destruct (decide _); [|done].
  destruct (mapM _ _) as [bs|] eqn:Hbs; [|done]. intros [= <-].
  unfold all_bands. cbn [ee.bands].
  apply mapM_Some_1 in Hbs.
  eapply (Forall2_Forall_r _ _ _ _ Hbs), Forall_true.
  intros [o n] b Hb. cbn [fst snd] in Hb.
  destruct (ee.band img o) as [r|] eqn:Hr; [|done]. injection Hb as <-.
  unfold all_bands in Hall. rewrite Forall_forall in Hall.
  by apply (Hall (o, r) (assoc_elem _ _ _ Hr)).
Qed.

Lemma ndvi_values_outside D sel p : roi p = false → ndvi_values D sel p = [].
Proof.
  intros Hroi. unfold ndvi_values. rewrite Hroi.
  induction (List.filter sel D) as [|img l IH]; [done|]. by csimpl.
Qed.

Lemma vci_image_masked_outside D ym img p :
  roi p = false → vci_image_of D "VCI" ym img →
  all_bands (λ r, r p = None) img.
Proof.
  intros Hroi (_ & Hband & Hpix). apply (all_bands_single _ _ "VCI"); [done|].
  rewrite single_band_value by done.
  specialize (Hpix p). unfold monthly_mean_ndvi in Hpix.
  rewrite ndvi_values_outside in Hpix by done. simpl in Hpix.
  by inversion Hpix.
Qed.

(** X8: the clip of cell 13 reaches every output.  At a pixel outside the
    region of interest (longitude -8.5..2, latitude 49..61) every band of
    every image of the VCI collection, of the flattened and renamed
    [vci_img] and of the animation frames is masked. *)
Theorem nothing_outside_roi (s e : Z) (D col : ee.ImageCollection) (p : ee.pixel) :
  vci s e D = Some col →
  ¬ ((-17 # 2 <= p.1 <= 2)%Q ∧ (49 <= p.2 <= 61)%Q) →
  (∀ img b, img ∈ col → ee.pixel_value img b p = None)
  ∧ (∀ new_names img b,
       vci_img s e D new_names = Some img → ee.pixel_value img b p = None)
  ∧ (∀ y frames img b,
       video_vci s e D y = Some frames → img ∈ frames →
       ee.pixel_value img b p = None).
Proof.
  intros Hcol Hout.
  assert (Hroi : roi p = false).
  { apply not_true_is_false. by rewrite roi_spec. }
  pose proof (vci_collection s e D col Hcol) as Hall.
  assert (Hmasked : Forall (all_bands (λ r, r p = None)) col).
  { eapply (Forall2_Forall_r _ _ _ _ Hall), Forall_true.
    intros ym img. by apply vci_image_masked_outside. }
  split_and!.
  - intros img b Himg. rewrite Forall_forall in Hmasked.
    by apply (all_bands_pixel (λ v, v = None)); [apply Hmasked|].
  - intros new_names img b. unfold vci_img, original_names, vci_toBands.
    rewrite Hcol. cbn [fmap option_fmap option_map mbind option_bind].
    intros Hsel. apply (all_bands_pixel (λ v, v = None)); [|done].
    eapply all_bands_select; [|exact Hsel]. by apply all_bands_toBands.
  - intros y frames img b. unfold video_vci. rewrite Hcol.
    cbn [mbind option_bind]. intros [= <-] Himg.
    apply list_elem_of_In, filter_In in Himg as [Himg _].
    rewrite Forall_forall in Hmasked.
    apply (all_bands_pixel (λ v, v = None)); [|done].
    by apply Hmasked, list_elem_of_In.
Qed.

Lemma nothing_outside_roi_witness :
  ∃ col, vci 2001 2002 sample_asset = Some col
         ∧ ∀ img b, img ∈ col → ee.pixel_value img b outside = None.
Proof.
  destruct (vci_images 2001 2002 sample_asset has_ndvi_sample complete_sample)
    as (col & Hcol & _).
  exists col. split; [exact Hcol|].
  apply (nothing_outside_roi 2001 2002 sample_asset col outside Hcol).
  cbn [outside fst snd]. lra.
Defined.

(** ** The scale factor and the index *)





(** ** The ends of the scale and the order of the years *)

Lemma vci_value_degenerate x a b : (a == b)%Q → (vci_value x a b == 0)%Q.
Proof.
  intros Hab. unfold vci_value.
  assert (H0 : (b - a == 0)%Q) by lra.
  unfold Qdiv. rewrite H0. change (/ 0)%Q with 0%Q. ring.
Qed.

Lemma vci_value_ends x a b :
  (a < b)%Q →
  ((vci_value x a b == 0)%Q ↔ (x == a)%Q)
  ∧ ((vci_value x a b == 100)%Q ↔ (x == b)%Q).
Proof.
  intros Hab. unfold vci_value.
  assert (Hne : ¬ (b - a == 0)%Q) by lra.
  assert (Hdiv : ((x - a) / (b - a) * (b - a) == x - a)%Q) by (by field).
  split; split; intros H.
  - assert (Ht : ((x - a) / (b - a) == 0)%Q) by lra.
    rewrite Ht in Hdiv. lra.
  - assert (H0 : (x - a == 0)%Q) by lra.
    unfold Qdiv. rewrite H0. ring.
  - assert (Ht : ((x - a) / (b - a) == 1)%Q) by lra.
    rewrite Ht in Hdiv. lra.
  - assert (H0 : (x - a == b - a)%Q) by lra.
    rewrite H0. field. done.
Qed.

Lemma vci_value_monotone x1 x2 a b :
  (a <= b)%Q → (x1 <= x2)%Q → (vci_value x1 a b <= vci_value x2 a b)%Q.
Proof.
  intros Hab Hx. unfold vci_value, Qdiv.
  assert (Hinv : (0 <= / (b - a))%Q) by (apply Qinv_le_0_compat; lra).
  assert ((x1 - a) * / (b - a) <= (x2 - a) * / (b - a))%Q.
  { apply Qmult_le_compat_r; [lra|done]. }
  lra.
Qed.

(** X10: the ends of the scale.  Where the minimum and the maximum of a
    calendar month coincide (a single observation, or all observations
    equal) the division by zero returns 0 and the VCI is 0, not an error.
    Where they differ, the VCI is 0 exactly where the monthly mean equals
    the minimum and 100 exactly where it equals the maximum. *)
Theorem vci_ends_of_scale (s e : Z) (D : ee.ImageCollection) :
  has_ndvi D → complete_years s e D →
  ∃ col,
    vci s e D = Some col
    ∧ ∀ y m, s ≤ y ≤ e → 1 ≤ m ≤ 12 →
        ∃ img,
          col !! position s y m = Some img
          ∧ ∀ p x a b,
              monthly_mean_ndvi D y m p = Some x →
              calendar_min_ndvi D m p = Some a →
              calendar_max_ndvi D m p = Some b →
              ∃ v, ee.pixel_value img "VCI" p = Some v
                   ∧ ((a == b)%Q → (v == 0)%Q)
                   ∧ ((a < b)%Q →
                      ((v == 0)%Q ↔ (x == a)%Q) ∧ ((v == 100)%Q ↔ (x == b)%Q)).
Proof.
  intros HD Hcomplete.
  destruct (vci_images s e D HD Hcomplete) as (col & Hcol & Hall).
  exists col. split; [done|]. intros y m Hy Hm.
  destruct (Forall2_year_months s e col y m Hall Hy Hm)
    as (img & Himg & _ & _ & Hpix).
  exists img. split; [done|]. intros p x a b Hx Ha Hb.
  specialize (Hpix p). cbn [fst snd] in Hpix. rewrite Hx, Ha, Hb in Hpix.
  inversion Hpix as [v ? Hv Hpv|]. subst. exists v. split; [done|]. split.
  - intros Hab. rewrite Hv. by apply vci_value_degenerate.
  - intros Hab. rewrite Hv. by apply vci_value_ends.
Qed.

Lemma vci_ends_of_scale_witness :
  ∃ col img v,
    vci 2001 2002 sample_asset = Some col
    ∧ col !! position 2001 2001 2 = Some img
    ∧ ee.pixel_value img "VCI" inside = Some v
    ∧ (v == 0)%Q.
Proof.
  destruct (vci_ends_of_scale 2001 2002 sample_asset has_ndvi_sample complete_sample)
    as (col & Hcol & Hall).
  destruct (Hall 2001 2) as (img & Himg & Hpix); [lia..|].
  edestruct (Hpix inside) as (v & Hv & _ & Hends);
    [vm_compute; reflexivity..|].
  exists col, img, v. split; [exact Hcol|]. split; [exact Himg|].
  split; [exact Hv|].
  destruct Hends as [Hzero _]; [reflexivity|]. apply Hzero. reflexivity.
Defined.

(** X11: the index keeps the order of the years.  For two years of the
    range and the same calendar month, at a pixel where both monthly means
    have a value, the year with the larger mean NDVI has the larger (or an
    equal) VCI. *)
Theorem vci_preserves_order (s e : Z) (D : ee.ImageCollection) :
  has_ndvi D → complete_years s e D →
  ∃ col,
    vci s e D = Some col
    ∧ ∀ y1 y2 m, s ≤ y1 ≤ e → s ≤ y2 ≤ e → 1 ≤ m ≤ 12 →
        ∃ img1 img2,
          col !! position s y1 m = Some img1
          ∧ col !! position s y2 m = Some img2
          ∧ ∀ p x1 x2,
              monthly_mean_ndvi D y1 m p = Some x1 →
              monthly_mean_ndvi D y2 m p = Some x2 →
              (x1 <= x2)%Q →
              ∃ v1 v2, ee.pixel_value img1 "VCI" p = Some v1
                       ∧ ee.pixel_value img2 "VCI" p = Some v2
                       ∧ (v1 <= v2)%Q.
Proof.
  intros HD Hcomplete.
  destruct (vci_images s e D HD Hcomplete) as (col & Hcol & Hall).
  exists col. split; [done|]. intros y1 y2 m Hy1 Hy2 Hm.
  destruct (Forall2_year_months s e col y1 m Hall Hy1 Hm)
    as (img1 & Himg1 & _ & _ & Hpix1).
  destruct (Forall2_year_months s e col y2 m Hall Hy2 Hm)
    as (img2 & Himg2 & _ & _ & Hpix2).
  exists img1, img2. split; [done|]. split; [done|].
  intros p x1 x2 Hx1 Hx2 Hle.
  destruct (mean_between_extrema D y1 m p x1 Hx1) as (a & b & Ha & Hb & Hab).
  specialize (Hpix1 p). specialize (Hpix2 p). cbn [fst snd] in Hpix1, Hpix2.
  rewrite Hx1, Ha, Hb in Hpix1. rewrite Hx2, Ha, Hb in Hpix2.
  inversion Hpix1 as [v1 ? Hv1 Hpv1|]. inversion Hpix2 as [v2 ? Hv2 Hpv2|].
  subst. exists v1, v2. split; [done|]. split; [done|].
  rewrite Hv1, Hv2. apply vci_value_monotone; [lra|done].
Qed.

Lemma vci_preserves_order_witness :
  ∃ col img1 img2 v1 v2,
    vci 2001 2002 sample_asset = Some col
    ∧ col !! position 2001 2001 1 = Some img1
    ∧ col !! position 2001 2002 1 = Some img2
    ∧ ee.pixel_value img1 "VCI" inside = Some v1
    ∧ ee.pixel_value img2 "VCI" inside = Some v2
    ∧ (v1 <= v2)%Q.
Proof.
  destruct (vci_preserves_order 2001 2002 sample_asset has_ndvi_sample complete_sample)
    as (col & Hcol & Hall).
  destruct (Hall 2001 2002 1) as (img1 & img2 & Himg1 & Himg2 & Hpix); [lia..|].
  edestruct (Hpix inside) as (v1 & v2 & Hv1 & Hv2 & Hle);
    [vm_compute; reflexivity..| |].
  - vm_compute. discriminate.
  - exists col, img1, img2, v1, v2.
    split; [exact Hcol|]. split; [exact Himg1|]. split; [exact Himg2|].
    split; [exact Hv1|]. split; [exact Hv2|exact Hle].
Defined.

(** ** What the index depends on *)

Lemma filter_Permutation_bool {A} (f : A → bool) (l k : list A) :
  l ≡ₚ k → List.filter f l ≡ₚ List.filter f k.
Proof.
  induction 1 as [|x l k _ IH|x y l|l k j _ IH1 _ IH2]; simpl.
  - done.
  - destruct (f x); [by constructor|done].
  - destruct (f x), (f y); try done. apply perm_swap.
  - by etrans.
Qed.

Lemma ndvi_values_Permutation D D' sel p :
  D ≡ₚ D' → ndvi_values D sel p ≡ₚ ndvi_values D' sel p.
Proof.
  intros Hperm. unfold ndvi_values.
  by apply omap_Permutation, filter_Permutation_bool.
Qed.

Lemma Qsum_Permutation l k : l ≡ₚ k → (ee.Qsum l == ee.Qsum k)%Q.
Proof.
  induction 1 as [|x l k _ IH|x y l|l k j _ IH1 _ IH2]; unfold ee.Qsum in *; simpl.
  - reflexivity.
  - by rewrite IH.
  - ring.
  - by etrans.
Qed.

Lemma mean_of_Permutation l k :
  l ≡ₚ k → same_pixel (ee.mean_of l) (ee.mean_of k).
Proof.
  intros Hperm. destruct l as [|x l], k as [|y k].
  - constructor.
  - by apply Permutation_nil_cons in Hperm.
  - symmetry in Hperm. by apply Permutation_nil_cons in Hperm.
  - unfold ee.mean_of. constructor.
    rewrite (Qsum_Permutation _ _ Hperm), (Permutation_length Hperm). reflexivity.
Qed.

(** The fold of [Qmin] returns one of the values it folds over. *)
Lemma foldl_Qmin_elem a l : ∃ v, v ∈ a :: l ∧ (foldl Qmin a l == v)%Q.
Proof.
  revert a. induction l as [|x l IH]; intros a; simpl.
  - exists a. split; [apply list_elem_of_here|reflexivity].
  - destruct (IH (Qmin a x)) as (v & [->|Hv]%elem_of_cons & Heq).
    + destruct (Q.min_spec a x) as [[_ Hm]|[_ Hm]].
      * exists a. split; [apply list_elem_of_here|]. by rewrite Heq.
      * exists x. split; [apply list_elem_of_further, list_elem_of_here|].
        by rewrite Heq.
    + exists v. split; [by do 2 apply list_elem_of_further|done].
Qed.

Lemma foldl_Qmax_elem a l : ∃ v, v ∈ a :: l ∧ (foldl Qmax a l == v)%Q.
Proof.
  revert a. induction l as [|x l IH]; intros a; simpl.
  - exists a. split; [apply list_elem_of_here|reflexivity].
  - destruct (IH (Qmax a x)) as (v & [->|Hv]%elem_of_cons & Heq).
    + destruct (Q.max_spec a x) as [[_ Hm]|[_ Hm]].
      * exists x. split; [apply list_elem_of_further, list_elem_of_here|].
        by rewrite Heq.
      * exists a. split; [apply list_elem_of_here|]. by rewrite Heq.
    + exists v. split; [by do 2 apply list_elem_of_further|done].
Qed.

Lemma min_of_elem l lo : ee.min_of l = Some lo → ∃ v, v ∈ l ∧ (lo == v)%Q.
Proof. destruct l as [|a l]; [done|]. intros [= <-]. apply foldl_Qmin_elem. Qed.

Lemma max_of_elem l hi : ee.max_of l = Some hi → ∃ v, v ∈ l ∧ (hi == v)%Q.
Proof. destruct l as [|a l]; [done|]. intros [= <-]. apply foldl_Qmax_elem. Qed.

Lemma min_of_Permutation l k :
  l ≡ₚ k → same_pixel (ee.min_of l) (ee.min_of k).
Proof.
  intros Hperm.
  destruct (ee.min_of l) as [a|] eqn:Ha, (ee.min_of k) as [b|] eqn:Hb.
  - constructor.
    destruct (min_of_elem _ _ Ha) as (va & Hva & Hea).
    destruct (min_of_elem _ _ Hb) as (vb & Hvb & Heb).
    apply Qle_antisym.
    + rewrite Heb. eapply min_of_le; [exact Ha|]. by rewrite Hperm.
    + rewrite Hea. eapply min_of_le; [exact Hb|]. by rewrite <- Hperm.
  - destruct k; [|done]. apply Permutation_nil_r in Hperm. by subst.
  - destruct l; [|done]. apply Permutation_nil_l in Hperm. by subst.
  - constructor.
Qed.

Lemma max_of_Permutation l k :
  l ≡ₚ k → same_pixel (ee.max_of l) (ee.max_of k).
Proof.
  intros Hperm.
  destruct (ee.max_of l) as [a|] eqn:Ha, (ee.max_of k) as [b|] eqn:Hb.
  - constructor.
    destruct (max_of_elem _ _ Ha) as (va & Hva & Hea).
    destruct (max_of_elem _ _ Hb) as (vb & Hvb & Heb).
    apply Qle_antisym.
    + rewrite Hea. eapply max_of_ge; [exact Hb|]. by rewrite <- Hperm.
    + rewrite Heb. eapply max_of_ge; [exact Ha|]. by rewrite Hperm.
  - destruct k; [|done]. apply Permutation_nil_r in Hperm. by subst.
  - destruct l; [|done]. apply Permutation_nil_l in Hperm. by subst.
  - constructor.
Qed.

Lemma same_pixel_fmap_scale a b :
  same_pixel a b → same_pixel (scale <$> a) (scale <$> b).
Proof. destruct 1; constructor. unfold scale. by apply Qmult_comp. Qed.

Lemma vci_pixel_proper x x' a a' b b' :
  same_pixel x x' → same_pixel a a' → same_pixel b b' →
  same_pixel (vci_pixel x a b) (vci_pixel x' a' b').
Proof.
  destruct 1 as [x x' Hx|]; [|constructor].
  destruct 1 as [a a' Ha|]; [|constructor].
  destruct 1 as [b b' Hb|]; [|constructor].
  constructor. unfold vci_value. by rewrite Hx, Ha, Hb.
Qed.

Lemma Forall2_common_index {A B C} (P : A → B → Prop) (Q : A → C → Prop)
    (R : B → C → Prop) l k j :
  Forall2 P l k → Forall2 Q l j → (∀ x y z, P x y → Q x z → R y z) →
  Forall2 R k j.
Proof.
  intros HP. revert j. induction HP as [|x y l k Hxy _ IH]; intros j HQ HR.
  - apply Forall2_nil_inv_l in HQ as ->. constructor.
  - apply Forall2_cons_inv_l in HQ as (z & j' & Hxz & HQ & ->).
    constructor; [by eapply HR|by apply IH].
Qed.

(** X12: the order in which the asset lists its images does not matter.
    Two assets with the same images in a different order give VCI
    collections with the same properties, the same bands and the same value
    at every pixel, image by image. *)
Theorem vci_order_independent (s e : Z) (D D' : ee.ImageCollection) :
  D ≡ₚ D' → has_ndvi D → complete_years s e D →
  ∃ col col',
    vci s e D = Some col
    ∧ vci s e D' = Some col'
    ∧ Forall2 (λ img img',
         ee.props img = ee.props img'
         ∧ ee.bandNames img = ee.bandNames img'
         ∧ ∀ p, same_pixel (ee.pixel_value img "VCI" p)
                           (ee.pixel_value img' "VCI" p))
        col col'.
Proof.
  intros Hperm HD Hcomplete.
  assert (HD' : has_ndvi D').
  { unfold has_ndvi in *. by rewrite <- Hperm. }
  assert (Hcomplete' : complete_years s e D').
  { intros y m Hy Hm. destruct (Hcomplete y m Hy Hm) as (img & Himg & Htaken).
    exists img. by rewrite <- Hperm. }
  destruct (vci_images s e D HD Hcomplete) as (col & Hcol & Hall).
  destruct (vci_images s e D' HD' Hcomplete') as (col' & Hcol' & Hall').
  exists col, col'. split; [done|]. split; [done|].
  eapply Forall2_common_index; [exact Hall|exact Hall'|].
  intros [y m] img img' (Hprops & Hband & Hpix) (Hprops' & Hband' & Hpix').
  split_and!; [congruence|congruence|].
  intros p. eapply same_pixel_trans; [apply Hpix|].
  eapply same_pixel_trans; [|apply same_pixel_sym, Hpix'].
  cbn [fst snd]. apply vci_pixel_proper.
  - by apply same_pixel_fmap_scale, mean_of_Permutation, ndvi_values_Permutation.
  - by apply same_pixel_fmap_scale, min_of_Permutation, ndvi_values_Permutation.
  - by apply same_pixel_fmap_scale, max_of_Permutation, ndvi_values_Permutation.
Qed.

Lemma vci_order_independent_witness :
  ∃ col col',
    vci 2001 2002 sample_asset = Some col
    ∧ vci 2001 2002 (reverse sample_asset) = Some col'
    ∧ length col = length col'.
Proof.
  destruct (vci_order_independent 2001 2002 sample_asset (reverse sample_asset))
    as (col & col' & Hcol & Hcol' & Hall).
  - symmetry. apply reverse_Permutation.
  - apply has_ndvi_sample.
  - apply complete_sample.
  - exists col, col'. split; [exact Hcol|]. split; [exact Hcol'|].
    exact (Forall2_length _ _ _ Hall).
Defined.

Lemma ndvi_values_same D D' (sel : ee.Image → bool) p :
  same_ndvi_in_roi D D' →
  (∀ img img',
     ee.props img !! "system:time_start" = ee.props img' !! "system:time_start" →
     sel img = sel img') →
  ndvi_values D sel p = ndvi_values D' sel p.
Proof.
  intros Hsame Hsel. unfold ndvi_values.
  induction Hsame as [|img img' D D' [Htime Hpix] _ IH]; [done|].
  simpl. rewrite (Hsel img img' Htime).
  destruct (sel img'); [|done]. csimpl. rewrite IH.
  destruct (roi p) eqn:Hroi; [|done]. by rewrite (Hpix p Hroi).
Qed.

Lemma taken_in_time y m img img' :
  ee.props img !! "system:time_start" = ee.props img' !! "system:time_start" →
  taken_in y m img = taken_in y m img'.
Proof. unfold taken_in. by intros ->. Qed.

Lemma taken_in_month_time m img img' :
  ee.props img !! "system:time_start" = ee.props img' !! "system:time_start" →
  taken_in_month m img = taken_in_month m img'.
Proof. unfold taken_in_month. by intros ->. Qed.

(** X13: the index reads the dates and the NDVI inside the region of
    interest, and nothing else.  Two assets whose images have, one by one,
    the same time stamp and the same NDVI at every pixel of the region
    (other bands, other properties and the values outside the region may
    differ) give VCI collections with the same properties, the same bands
    and the same value at every pixel, image by image. *)
Theorem vci_depends_on_ndvi_in_roi (s e : Z) (D D' : ee.ImageCollection) :
  same_ndvi_in_roi D D' → has_ndvi D → has_ndvi D' → complete_years s e D →
  ∃ col col',
    vci s e D = Some col
    ∧ vci s e D' = Some col'
    ∧ Forall2 (λ img img',
         ee.props img = ee.props img'
         ∧ ee.bandNames img = ee.bandNames img'
         ∧ ∀ p, same_pixel (ee.pixel_value img "VCI" p)
                           (ee.pixel_value img' "VCI" p))
        col col'.
Proof.
  intros Hsame HD HD' Hcomplete.
  assert (Hcomplete' : complete_years s e D').
  { intros y m Hy Hm. destruct (Hcomplete y m Hy Hm) as (img & Himg & Htaken).
    apply list_elem_of_lookup in Himg as [i Hi].
    destruct (Forall2_lookup_l _ _ _ _ _ Hsame Hi) as (img' & Hi' & Htime & _).
    exists img'. split; [by eapply list_elem_of_lookup_2|].
    by rewrite <- (taken_in_time y m img img' Htime). }
  destruct (vci_images s e D HD Hcomplete) as (col & Hcol & Hall).
  destruct (vci_images s e D' HD' Hcomplete') as (col' & Hcol' & Hall').
  exists col, col'. split; [done|]. split; [done|].
  eapply Forall2_common_index; [exact Hall|exact Hall'|].
  intros [y m] img img' (Hprops & Hband & Hpix) (Hprops' & Hband' & Hpix').
  split_and!; [congruence|congruence|].
  intros p. eapply same_pixel_trans; [apply Hpix|].
  eapply same_pixel_trans; [|apply same_pixel_sym, Hpix'].
  cbn [fst snd].
  unfold monthly_mean_ndvi, calendar_min_ndvi, calendar_max_ndvi.
  rewrite (ndvi_values_same D D' (taken_in y m) p Hsame (taken_in_time y m)).
  rewrite (ndvi_values_same D D' (taken_in_month m) p Hsame (taken_in_month_time m)).
  destruct (vci_pixel _ _ _); constructor. reflexivity.
Qed.

Lemma band_with_other_data img :
  ee.band (with_other_data img) "NDVI"
  = (λ (r : ee.raster) p, if roi p then r p else Some 0%Q) <$> ee.band img "NDVI".
Proof.
  unfold ee.band, with_other_data. cbn [ee.bands ee.assoc].
  rewrite decide_False by done.
  apply (assoc_fmap (λ (r : ee.raster) p, if roi p then r p else Some 0%Q)).
Qed.

Lemma same_ndvi_sample : same_ndvi_in_roi sample_asset sample_asset_other.
Proof.
  apply Forall2_fmap_r, Forall_Forall2_diag, Forall_true. intros img. split.
  - unfold with_other_data. cbn [ee.props]. by rewrite lookup_insert_ne.
  - intros p Hroi. unfold ee.pixel_value. rewrite band_with_other_data.
    destruct (ee.band img "NDVI") as [r|]; simpl; [by rewrite Hroi|done].
Qed.

Lemma has_ndvi_sample_other : has_ndvi sample_asset_other.
Proof.
  unfold has_ndvi, sample_asset_other. apply Forall_fmap.
  eapply Forall_impl; [apply has_ndvi_sample|].
  intros img [r Hr]. unfold compose. rewrite band_with_other_data, Hr. by eexists.
Qed.

Lemma vci_depends_on_ndvi_in_roi_witness :
  ∃ col col',
    vci 2001 2002 sample_asset = Some col
    ∧ vci 2001 2002 sample_asset_other = Some col'
    ∧ length col = length col'.
Proof.
  destruct (vci_depends_on_ndvi_in_roi 2001 2002 sample_asset sample_asset_other)
    as (col & col' & Hcol & Hcol' & Hall).
  - apply same_ndvi_sample.
  - apply has_ndvi_sample.
  - apply has_ndvi_sample_other.
  - apply complete_sample.
  - exists col, col'. split; [exact Hcol|]. split; [exact Hcol'|].
    exact (Forall2_length _ _ _ Hall).
Defined.

(** ** The frames of the animation *)

Lemma year_months_length_any s e :
  length (year_months s e) = Z.to_nat (12 * (e - s + 1)).
Proof.
  unfold year_months. rewrite (length_join_blocks _ 12).
  - rewrite length_fmap, length_seqZ. lia.
  - apply Forall_fmap, Forall_true. intros y. unfold compose.
    by rewrite length_fmap, length_seqZ.
Qed.


Lemma year_months_split s e y :
  s ≤ y ≤ e →
  year_months s e
  = year_months s (y - 1) ++ ((λ m, (y, m)) <$> seqZ 1 12) ++ year_months (y + 1) e.
Proof.
  intros Hy. unfold year_months.
  replace (e - s + 1) with ((y - s) + (e - y + 1)) by lia.
  rewrite seqZ_app by lia.
  replace (s + (y - s)) with y by lia.
  rewrite (seqZ_cons y) by lia.
  rewrite fmap_app, fmap_cons, join_app. csimpl.
  replace (y - 1 - s + 1) with (y - s) by lia.
  replace (Z.succ y) with (y + 1) by lia.
  replace (Z.pred (e - y + 1)) with (e - (y + 1) + 1) by lia.
  done.
Qed.

Lemma vci_image_year D band ym img y :
  vci_image_of D band ym img →
  ee.Filter_eq "year" (ee.PNum y) img = bool_decide (ym.1 = y).
Proof.
  intros (Hprops & _). unfold ee.Filter_eq. rewrite Hprops, lookup_insert_eq.
  apply eq_true_iff_eq. rewrite !bool_decide_eq_true. split; [by intros [=]|by intros ->].
Qed.

Lemma filter_year_images D band yms col y (keep : bool) :
  Forall2 (vci_image_of D band) yms col →
  (∀ ym, ym ∈ yms → bool_decide (ym.1 = y) = keep) →
  List.filter (ee.Filter_eq "year" (ee.PNum y)) col = if keep then col else [].
Proof.
  intros Hall Hyms.
  assert (Hcol : ∀ img, img ∈ col → ee.Filter_eq "year" (ee.PNum y) img = keep).
  { intros img Himg. apply list_elem_of_lookup in Himg as [i Hi].
    destruct (Forall2_lookup_r _ _ _ _ _ Hall Hi) as (ym & Hym & Hof).
    rewrite (vci_image_year _ _ _ _ _ Hof). apply Hyms.
    by eapply list_elem_of_lookup_2. }
  destruct keep; [by apply filter_all_true|by apply filter_all_false].
Qed.

Lemma text_labels g v :
  g !! "y" = Some v →
  text g = (inr ((λ n, two_digits n +:+ "-" +:+ str v) <$> seqZ 1 12), g).
Proof. intros Hy. by rewrite text_run, Hy. Qed.

(** X14: cell 35, the frames and their labels.  When the animated year [y]
    lies in [start_year..end_year], [video_vci] holds exactly the 12 VCI
    images of that year, January to December, and label number [k] of [text]
    is ['mm-y'] for the month of frame number [k].  When [y] lies outside
    the range the animation has no frame, while [text] still has 12 labels. *)
Theorem video_frames_and_labels (g : gmap string pyval) (s e y : Z)
    (D col : ee.ImageCollection) :
  g !! "y" = Some (PyInt y) → vci s e D = Some col →
  ∃ frames labels,
    video_vci s e D y = Some frames
    ∧ text g = (inr labels, g)
    ∧ length labels = 12%nat
    ∧ (s ≤ y ≤ e →
       length frames = 12%nat
       ∧ ∀ k, (k < 12)%nat →
           ∃ frame,
             frames !! k = Some frame
             ∧ col !! position s y (Z.of_nat k + 1) = Some frame
             ∧ ee.props frame !! "month" = Some (ee.PNum (Z.of_nat k + 1))
             ∧ ee.props frame !! "year" = Some (ee.PNum y)
             ∧ labels !! k = Some (frame_label (Z.of_nat k + 1) y))
    ∧ (¬ s ≤ y ≤ e → frames = []).
Proof.
  intros Hy Hcol.
  pose proof (vci_collection s e D col Hcol) as Hall.
  exists (ee.filter (ee.Filter_eq "year" (ee.PNum y)) col),
         ((λ n, two_digits n +:+ "-" +:+ str (PyInt y)) <$> seqZ 1 12).
  split_and!.
  - unfold video_vci. by rewrite Hcol.
  - by apply text_labels.
  - by rewrite length_fmap, length_seqZ.
  - intros Hrange. rewrite (year_months_split s e y Hrange) in Hall.
    apply Forall2_app_inv_l in Hall as (k1 & k23 & H1 & H23 & ->).
    apply Forall2_app_inv_l in H23 as (k2 & k3 & H2 & H3 & ->).
    unfold ee.filter. rewrite !List.filter_app.
    rewrite (filter_year_images D "VCI" _ k1 y false H1).
    2: { intros [y' m'] [Hy' _]%elem_of_year_months.
         apply bool_decide_eq_false. simpl. lia. }
    rewrite (filter_year_images D "VCI" _ k2 y true H2).
    2: { intros [y' m'] (m & [= -> ->] & _)%list_elem_of_fmap.
         by apply bool_decide_eq_true. }
    rewrite (filter_year_images D "VCI" _ k3 y false H3).
    2: { intros [y' m'] [Hy' _]%elem_of_year_months.
         apply bool_decide_eq_false. simpl. lia. }
    rewrite app_nil_r. cbn [app].
    assert (Hlen1 : length k1 = Z.to_nat (12 * (y - s))).
    { rewrite <- (Forall2_length _ _ _ H1), year_months_length_any. lia. }
    assert (Hlen2 : length k2 = 12%nat).
    { by rewrite <- (Forall2_length _ _ _ H2), length_fmap, length_seqZ. }
    split; [done|]. intros k Hk.
    destruct (Forall2_lookup_l _ _ _ k (y, Z.of_nat k + 1) H2)
      as (frame & Hframe & Hprops & _).
    { rewrite list_lookup_fmap, lookup_seqZ_lt by lia.
      cbn [fmap option_fmap option_map]. do 2 f_equal. lia. }
    exists frame. split_and!.
    + done.
    + unfold position. rewrite lookup_app_r by lia. rewrite lookup_app_l by lia.
      rewrite <- Hframe. f_equal. lia.
    + by rewrite Hprops, lookup_insert_ne, lookup_insert_eq.
    + by rewrite Hprops, lookup_insert_eq.
    + rewrite list_lookup_fmap, lookup_seqZ_lt by lia.
      cbn [fmap option_fmap option_map str]. unfold frame_label.
      do 3 f_equal. lia.
  - intros Hout. unfold ee.filter.
    apply (filter_year_images D "VCI" _ col y false Hall).
    intros [y' m'] [Hy' _]%elem_of_year_months.
    apply bool_decide_eq_false. simpl. lia.
Qed.

Lemma video_frames_and_labels_witness :
  ∃ frames labels,
    video_vci 2001 2002 sample_asset 2002 = Some frames
    ∧ text (<["y":=PyInt 2002]> ∅) = (inr labels, <["y":=PyInt 2002]> ∅)
    ∧ length labels = 12%nat
    ∧ length frames = 12%nat.
Proof.
  destruct (vci_images 2001 2002 sample_asset has_ndvi_sample complete_sample)
    as (col & Hcol & _).
  destruct (video_frames_and_labels (<["y":=PyInt 2002]> ∅) 2001 2002 2002
              sample_asset col (lookup_insert_eq _ _ _) Hcol)
    as (frames & labels & Hframes & Hlabels & Hlen & Hin & _).
  exists frames, labels.
  split; [exact Hframes|]. split; [exact Hlabels|]. split; [exact Hlen|].
  apply Hin. lia.
Defined.

(** ** Renaming needs one name for every band *)

Lemma vci_collection_single s e D col :
  vci s e D = Some col → Forall (λ img, ee.bandNames img = ["VCI"]) col.
Proof.
  intros Hcol. pose proof (vci_collection s e D col Hcol) as Hall.
  eapply (Forall2_Forall_r _ _ _ _ Hall), Forall_true.
  intros ym img Hof. apply Hof.
Qed.

(** X15: cell 31, [vci_img.select(original_names, new_names)].  The VCI
    collection has [12 * (end_year - start_year + 1)] images; the renaming
    is an error unless [new_names] has exactly that many entries (names made
    for another number of years are refused); with that many pairwise
    distinct names it succeeds, the bands of [vci_img] are [new_names] in
    order, and the band under name number [i] is the VCI of image number [i]
    of the collection. *)
Theorem vci_img_needs_all_names (s e : Z) (D col : ee.ImageCollection)
    (new_names : list string) :
  vci s e D = Some col →
  length col = Z.to_nat (12 * (e - s + 1))
  ∧ (length new_names ≠ length col → vci_img s e D new_names = None)
  ∧ (length new_names = length col → NoDup new_names →
     ∃ img,
       vci_img s e D new_names = Some img
       ∧ ee.bandNames img = new_names
       ∧ ∀ i n, new_names !! i = Some n →
           ∃ frame, col !! i = Some frame
                    ∧ ∀ p, ee.pixel_value img n p = ee.pixel_value frame "VCI" p).
Proof.
  intros Hcol.
  pose proof (vci_collection s e D col Hcol) as Hall.
  pose proof (vci_collection_single s e D col Hcol) as Hsingle.
  pose proof (toBands_single col "VCI" Hsingle) as Hbands.
  pose proof (toBands_names_NoDup col "VCI" Hsingle) as Hnd.
  assert (Hlen : length (ee.bands (ee.toBands col)) = length col).
  { by rewrite Hbands, length_imap. }
  assert (Hrun : vci_img s e D new_names
                 = ee.select (ee.bandNames (ee.toBands col)) new_names
                     (ee.toBands col)).
  { unfold vci_img, original_names, vci_toBands. by rewrite Hcol. }
  split_and!.
  - by rewrite <- (Forall2_length _ _ _ Hall), year_months_length_any.
  - intros Hne. rewrite Hrun. unfold ee.select.
    rewrite decide_False; [done|].
    unfold ee.bandNames. rewrite length_fmap, Hlen. lia.
  - intros Heq Hnames. rewrite Hrun.
    rewrite select_relabel by (done || lia).
    eexists. split; [done|]. split.
    + unfold ee.bandNames. cbn [ee.bands]. apply fst_zip.
      rewrite length_fmap, Hlen. lia.
    + intros i n Hn.
      destruct (lookup_lt_is_Some_2 col i) as [frame Hframe].
      { rewrite <- Heq. by eapply lookup_lt_Some. }
      exists frame. split; [done|]. intros p.
      unfold ee.pixel_value at 1, ee.band. cbn [ee.bands].
      rewrite (assoc_lookup _ i n (default (λ _, None) (ee.band frame "VCI"))).
      * simpl. apply single_band_value.
        rewrite Forall_forall in Hsingle. apply Hsingle.
        by eapply list_elem_of_lookup_2.
      * rewrite fst_zip; [done|]. rewrite length_fmap, Hlen. lia.
      * apply lookup_zip_Some. split; [done|].
        rewrite Hbands, fmap_imap, list_lookup_imap, Hframe. reflexivity.
Qed.

Lemma vci_img_needs_all_names_witness :
  ∃ col, vci 2001 2002 sample_asset = Some col
         ∧ length col = 24%nat
         ∧ vci_img 2001 2002 sample_asset ["01-2001_VCI"] = None.
Proof.
  destruct (vci_images 2001 2002 sample_asset has_ndvi_sample complete_sample)
    as (col & Hcol & _).
  destruct (vci_img_needs_all_names 2001 2002 sample_asset col ["01-2001_VCI"] Hcol)
    as (Hlen & Hnone & _).
  exists col. split; [exact Hcol|]. split; [exact Hlen|].
  apply Hnone. rewrite Hlen. simpl. lia.
Defined.

(** ** The error paths of the helpers *)



(** A year bound to [None] is formatted, not refused. *)
Example text_of_None :
  (λ r, match r with inr l => take 2 l | inl _ => [] end)
    (text (<["y":=PyNone]> ∅)).1
  = ["01-None"; "02-None"].
Proof. vm_compute. reflexivity. Qed.
